(** * PageRank: the two estimators of [pagerank.py] and their transition model

    A shallow embedding of [transition_model], [sample_pagerank],
    [iterate_pagerank] and [estimate_page_rank].

    Modelling conventions.
    - A page is a string.  A Python [dict] is an association list in
      insertion order (iteration order matters to the in-place update of
      [iterate_pagerank]); a Python [set] of pages is a list without
      duplicates.
    - Python numbers are exact rationals [Q]: [int] values are injected,
      [float] arithmetic is carried out without rounding.  Equality of
      rank values is therefore [Qeq] ([==]).  Module [B64] gives the same
      code on binary64 floats, with the rounding of every operation, for
      the places where rounding decides what the code does.
    - A raised exception is a value of [exn]; every subscript [d[k]] and
      every division [/] is fallible, as in Python.
    - The random source is an oracle [rnd : nat -> nat]: the [k]-th call of
      the [random] module returns the element whose index is [rnd k]
      reduced modulo the length of the population.  Every outcome that
      Python can produce is produced by some oracle.
    - The [while] loop of [iterate_pagerank] has no bound; it is run with
      fuel, and [None] means that the fuel ran out. *)

From Stdlib Require Import String.
From Stdlib Require Import List Bool Arith ZArith QArith Qabs Qround Lia Lqa.
From Stdlib Require Import Permutation.
From Stdlib Require Import Floats.
Import ListNotations.

Set Warnings "-inexact-float".

Local Open Scope Q_scope.

(** ** Exceptions and the error monad *)

(** The built-in exceptions the code can raise, and [EmptyGraphError], the
    condition named by the design for an empty graph. *)
Inductive exn : Type :=
| IndexError
| KeyError
| ZeroDivisionError
| ValueError
| EmptyGraphError.

Inductive result (A : Type) : Type :=
| Ok (a : A)
| Raise (e : exn).

Arguments Ok {A} a.
Arguments Raise {A} e.

Definition bind {A B : Type} (m : result A) (f : A -> result B) : result B :=
  match m with
  | Ok a => f a
  | Raise e => Raise e
  end.

Notation "x <- m ;; k" := (bind m (fun x => k))
  (at level 61, m at next level, right associativity).

(** ** Dictionaries *)

Definition page := string.

Definition dict (V : Type) := list (page * V).

Definition keys {V : Type} (d : dict V) : list page := map fst d.

Definition values {V : Type} (d : dict V) : list V := map snd d.

(** [d[k]], raising [KeyError] for a missing key. *)
Fixpoint getitem {V : Type} (d : dict V) (k : page) : result V :=
  match d with
  | [] => Raise KeyError
  | (k', v) :: rest => if String.eqb k k' then Ok v else getitem rest k
  end.

(** [d[k] = v]: an existing key keeps its position, a new key is appended. *)
Fixpoint setitem {V : Type} (d : dict V) (k : page) (v : V) : dict V :=
  match d with
  | [] => [(k, v)]
  | (k', v') :: rest =>
      if String.eqb k k' then (k', v) :: rest else (k', v') :: setitem rest k v
  end.

(** [dict.fromkeys(ks, v)] for a list [ks] of distinct keys. *)
Definition fromkeys {V : Type} (ks : list page) (v : V) : dict V :=
  map (fun k => (k, v)) ks.

(** [k in s] for a set of pages. *)
Definition mem (k : page) (s : list page) : bool :=
  existsb (String.eqb k) s.

(** The link graph: page -> set of pages. *)
Definition corpus := dict (list page).

Fixpoint nodupb (l : list page) : bool :=
  match l with
  | [] => true
  | x :: r => negb (mem x r) && nodupb r
  end.

(** The values the code receives: a dict (distinct keys) of sets (distinct
    elements) whose links all point to pages of the corpus. *)
Definition link_graph (c : corpus) : bool :=
  nodupb (keys c)
  && forallb (fun ls => nodupb ls && forallb (fun q => mem q (keys c)) ls)
             (values c).

(** ** Numbers *)

Definition Qnat (n : nat) : Q := inject_Z (Z.of_nat n).

Definition Qzero (x : Q) : bool := Qeq_bool x 0.

(** [x / y] of Python: division by zero raises. *)
Definition fdiv (x y : Q) : result Q :=
  if Qzero y then Raise ZeroDivisionError else Ok (x / y).

Definition Qltb (x y : Q) : bool := negb (Qle_bool y x).

Fixpoint Qsum (l : list Q) : Q :=
  match l with
  | [] => 0
  | x :: r => x + Qsum r
  end.

Definition DAMPING : Q := 85 # 100.
Definition SAMPLES : Z := 10000.

(** ** [transition_model] *)

(** The loop [for linked_page in corpus[page]: dist[linked_page] += link_chance]. *)
Fixpoint add_link_chance (dist : dict Q) (links : list page) (link_chance : Q)
  : result (dict Q) :=
  match links with
  | [] => Ok dist
  | linked_page :: rest =>
      v <- getitem dist linked_page ;;
      add_link_chance (setitem dist linked_page (v + link_chance)) rest link_chance
  end.

Definition transition_model (c : corpus) (p : page) (damping_factor : Q)
  : result (dict Q) :=
  let total_pages := length c in
  links <- getitem c p ;;
  let num_links := length links in
  if Nat.eqb num_links 0 then
    chance <- fdiv 1 (Qnat total_pages) ;;
    Ok (fromkeys (keys c) chance)
  else
    random_chance <- fdiv (1 - damping_factor) (Qnat total_pages) ;;
    link_chance <- fdiv damping_factor (Qnat num_links) ;;
    add_link_chance (fromkeys (keys c) random_chance) links link_chance.

(** ** The random source *)

(** [random.choice(seq)]. *)
Definition random_choice (seq : list page) (r : nat) : result page :=
  match seq with
  | [] => Raise IndexError
  | x :: _ => Ok (nth (r mod length seq) seq x)
  end.

(** [random.choices(population, weights, k=1).pop()]: the library refuses
    weights whose total is not positive. *)
Definition random_choices (population : list page) (weights : list Q) (r : nat)
  : result page :=
  match population with
  | [] => Raise IndexError
  | x :: _ =>
      if Qle_bool (Qsum weights) 0 then Raise ValueError
      else Ok (nth (r mod length population) population x)
  end.

(** ** [sample_pagerank] *)

(** [samples[page] += 1]. *)
Definition incr (samples : dict Z) (p : page) : result (dict Z) :=
  v <- getitem samples p ;;
  Ok (setitem samples p (v + 1)%Z).

(** The loop [for s in range(n - 1)], at iteration [s] with [k] iterations
    left; the state is [(dist, samples)]. *)
Fixpoint sample_loop (c : corpus) (damping_factor : Q) (rnd : nat -> nat)
  (k s : nat) (dist : dict Q) (samples : dict Z) : result (dict Z) :=
  match k with
  | O => Ok samples
  | S k' =>
      p <- random_choices (keys dist) (values dist) (rnd (S s)) ;;
      dist' <- transition_model c p damping_factor ;;
      samples' <- incr samples p ;;
      sample_loop c damping_factor rnd k' (S s) dist' samples'
  end.

(** The loop [for s in samples: page_rank[s] = samples[s] / n]. *)
Fixpoint normalise (samples : dict Z) (todo : list page) (n : Z)
  (page_rank : dict Q) : result (dict Q) :=
  match todo with
  | [] => Ok page_rank
  | s :: rest =>
      cnt <- getitem samples s ;;
      v <- fdiv (inject_Z cnt) (inject_Z n) ;;
      normalise samples rest n (setitem page_rank s v)
  end.

(** The visit counts [samples] as they stand when the sampling loop ends. *)
Definition sample_counts (c : corpus) (damping_factor : Q) (n : Z)
  (rnd : nat -> nat) : result (dict Z) :=
  p <- random_choice (keys c) (rnd O) ;;
  dist <- transition_model c p damping_factor ;;
  let samples := fromkeys (keys c) 0%Z in
  samples <- incr samples p ;;
  sample_loop c damping_factor rnd (Z.to_nat (n - 1)) O dist samples.

Definition sample_pagerank (c : corpus) (damping_factor : Q) (n : Z)
  (rnd : nat -> nat) : result (dict Q) :=
  samples <- sample_counts c damping_factor n rnd ;;
  normalise samples (keys samples) n [].

(** ** [estimate_page_rank] *)

(** The loop [for linking_page in linking_pages], accumulating [component]. *)
Fixpoint component_loop (c : corpus) (total_pages : nat)
  (current_page_ranks : dict Q) (linking_pages : list page) (component : Q)
  : result Q :=
  match linking_pages with
  | [] => Ok component
  | linking_page :: rest =>
      links <- getitem c linking_page ;;
      let num_links := length links in
      r <- getitem current_page_ranks linking_page ;;
      term <- (if Nat.eqb num_links 0 then fdiv r (Qnat total_pages)
               else fdiv r (Qnat num_links)) ;;
      component_loop c total_pages current_page_ranks rest (component + term)
  end.

Definition estimate_page_rank (c : corpus) (damping_factor : Q)
  (total_pages : nat) (current_page_ranks : dict Q) (linking_pages : list page)
  : result Q :=
  component <- component_loop c total_pages current_page_ranks linking_pages 0 ;;
  base <- fdiv (1 - damping_factor) (Qnat total_pages) ;;
  Ok (base + damping_factor * component).

(** ** [iterate_pagerank] *)

(** The inner loop [for linking_page in corpus] that fills
    [linking_pages_dict[page]]; [append] keeps the corpus order. *)
Fixpoint linking_pages_of (c : corpus) (p : page) (todo : list page)
  : result (list page) :=
  match todo with
  | [] => Ok []
  | linking_page :: rest =>
      links <- getitem c linking_page ;;
      tl <- linking_pages_of c p rest ;;
      Ok (if mem p links || Nat.eqb (length links) 0
          then linking_page :: tl else tl)
  end.

(** The outer loop [for page in corpus]. *)
Fixpoint linking_pages_loop (c : corpus) (todo : list page)
  : result (dict (list page)) :=
  match todo with
  | [] => Ok []
  | p :: rest =>
      bl <- linking_pages_of c p (keys c) ;;
      tl <- linking_pages_loop c rest ;;
      Ok ((p, bl) :: tl)
  end.

Definition linking_pages_dict (c : corpus) : result (dict (list page)) :=
  linking_pages_loop c (keys c).

Definition threshold : Q := 1 # 1000.

(** One pass of [for page in corpus] inside the [while]: the single table
    [page_rank] is read by [estimate_page_rank] and then written. *)
Fixpoint round_loop (c : corpus) (damping_factor : Q) (total_pages : nat)
  (lpd : dict (list page)) (todo : list page) (page_rank : dict Q) (loop : bool)
  : result (dict Q * bool) :=
  match todo with
  | [] => Ok (page_rank, loop)
  | p :: rest =>
      linking_pages <- getitem lpd p ;;
      estimate <- estimate_page_rank c damping_factor total_pages page_rank
                    linking_pages ;;
      current <- getitem page_rank p ;;
      let loop' :=
        if Qltb threshold (current - estimate) || Qltb threshold (estimate - current)
        then true else loop in
      round_loop c damping_factor total_pages lpd rest
        (setitem page_rank p estimate) loop'
  end.

(** The body of [while loop]: [loop = False], then the pass over the corpus. *)
Definition round (c : corpus) (damping_factor : Q) (total_pages : nat)
  (lpd : dict (list page)) (page_rank : dict Q) : result (dict Q * bool) :=
  round_loop c damping_factor total_pages lpd (keys c) page_rank false.

Fixpoint while_loop (fuel : nat) (c : corpus) (damping_factor : Q)
  (total_pages : nat) (lpd : dict (list page)) (page_rank : dict Q)
  : option (result (dict Q)) :=
  match fuel with
  | O => None
  | S fuel' =>
      match round c damping_factor total_pages lpd page_rank with
      | Raise e => Some (Raise e)
      | Ok (page_rank', loop) =>
          if loop
          then while_loop fuel' c damping_factor total_pages lpd page_rank'
          else Some (Ok page_rank')
      end
  end.

Definition iterate_pagerank (fuel : nat) (c : corpus) (damping_factor : Q)
  : option (result (dict Q)) :=
  match linking_pages_dict c with
  | Raise e => Some (Raise e)
  | Ok lpd =>
      let total_pages := length c in
      match fdiv 1 (Qnat total_pages) with
      | Raise e => Some (Raise e)
      | Ok initial =>
          while_loop fuel c damping_factor total_pages lpd
            (fromkeys (keys c) initial)
      end
  end.

Definition chain : corpus := [("A", ["B"]); ("B", ["C"]); ("C", [])]%string.
Definition two : corpus := [("A", ["B"]); ("B", ["A"])]%string.
Definition single : corpus := [("A", [])]%string.

(** The snapshot discipline of the design, in its words: every value a
    round writes is the estimate computed from the table as it stood when
    the round started ([pr]), for every page of the corpus. *)
Definition reads_previous_snapshot (c : corpus) (d : Q) (N : nat)
  (lpd : dict (list page)) (pr pr' : dict Q) : Prop :=
  forall p bl,
    In p (keys c) -> getitem lpd p = Ok bl ->
    exists e v,
      estimate_page_rank c d N pr bl = Ok e /\ getitem pr' p = Ok v /\ v == e.

Definition Zsum (l : list Z) : Z := fold_right Z.add 0%Z l.

(** ** The rounds as functions, and the measure of their progress *)

(** [|old - new| <= threshold], as the code tests it. *)
Definition within_threshold (old new : Q) : bool :=
  negb (Qltb threshold (old - new) || Qltb threshold (new - old)).

(** The test of line 137: [page in corpus[linking_page] or
    len(corpus[linking_page]) == 0]. *)
Definition is_linking (c : corpus) (p q : page) : bool :=
  match getitem c q with
  | Ok links => mem p links || Nat.eqb (length links) 0
  | Raise _ => false
  end.

(** The rank of a page is its count divided by [n]. *)
Definition rank_of_counts (n : Z) (samples : dict Z) : dict Q :=
  map (fun kv => (fst kv, inject_Z (snd kv) / inject_Z n)) samples.

(** The value a table holds for a page (0 for a page it does not hold). *)
Definition val (T : dict Q) (q : page) : Q :=
  match getitem T q with
  | Ok v => v
  | Raise _ => 0
  end.

Definition links_of (c : corpus) (q : page) : list page :=
  match getitem c q with
  | Ok links => links
  | Raise _ => []
  end.

(** The divisor [estimate_page_rank] uses for a linking page. *)
Definition outdegree (c : corpus) (q : page) : nat :=
  if Nat.eqb (length (links_of c q)) 0 then length c else length (links_of c q).

Definition backlinks (c : corpus) (p : page) : list page :=
  filter (is_linking c p) (keys c).

Definition estimate (c : corpus) (d : Q) (T : dict Q) (bl : list page) : Q :=
  (1 - d) / Qnat (length c)
  + d * fold_left (fun acc q => acc + val T q / Qnat (outdegree c q)) bl 0.

Fixpoint sweep (c : corpus) (d : Q) (todo : list page) (T : dict Q) : dict Q :=
  match todo with
  | [] => T
  | p :: rest => sweep c d rest (setitem T p (estimate c d T (backlinks c p)))
  end.

Fixpoint changed (c : corpus) (d : Q) (todo : list page) (T : dict Q) : bool :=
  match todo with
  | [] => false
  | p :: rest =>
      negb (within_threshold (val T p) (estimate c d T (backlinks c p)))
      || changed c d rest (setitem T p (estimate c d T (backlinks c p)))
  end.

(** The share of the rank of [q] that the update rule hands to [p]. *)
Definition weight (c : corpus) (p q : page) : Q :=
  if is_linking c p q then 1 / Qnat (outdegree c q) else 0.

(** The share of the rank of [q] that flows into the pages of [L]. *)
Definition inflow (c : corpus) (q : page) (L : list page) : Q :=
  Qsum (map (fun p => weight c p q) L).

(** How far apart two tables are at a page. *)
Definition gap (T T' : dict Q) (q : page) : Q := Qabs (val T' q - val T q).

(** The potential of a round in progress.  The pages of [l] are still to
    come, in this order, after the pages of [pre]; the distance [w q] of
    the two tables at [q] counts in full, less [a] times the part of the
    rank of [q] that flows to the pages met after [q]. *)
Fixpoint potential (c : corpus) (a : Q) (w : page -> Q) (pre l : list page) : Q :=
  match l with
  | [] => 0
  | q :: r =>
      w q * ((1 - a) + a * inflow c q (q :: pre)) + potential c a w (q :: pre) r
  end.

(** The potential of a table at the start of a round, for the damping [d]. *)
Definition round_potential (c : corpus) (d : Q) (T : dict Q) : Q :=
  potential c (Qabs d) (gap T (sweep c d (keys c) T)) [] (keys c).

(** ** The code on binary64 floats *)

Module B64.

(** An [int] operand of a float operation, rounded to nearest. *)
Definition b64_of_Z (z : Z) : float :=
  SF2Prim (binary_normalize prec emax z 0 false).

Definition b64_of_nat (n : nat) : float := b64_of_Z (Z.of_nat n).

(** [x / n] for a float [x] and an [int] [n]; every divisor in the code is
    an [int] ([total_pages], [num_links], [n]), and a zero divisor raises.
    For [int / int] the dividend is converted too: that is Python's
    quotient as long as both operands are below 2^53. *)
Definition fdiv (x : float) (n : Z) : result float :=
  if Z.eqb n 0 then Raise ZeroDivisionError
  else Ok (PrimFloat.div x (b64_of_Z n)).

(** [sum(values)], added from the left. *)
Definition fsum (l : list float) : float := fold_left PrimFloat.add l 0%float.

(** The loop [for s in samples: page_rank[s] = samples[s] / n]. *)
Fixpoint normalise (samples : dict Z) (todo : list page) (n : Z)
  (page_rank : dict float) : result (dict float) :=
  match todo with
  | [] => Ok page_rank
  | s :: rest =>
      cnt <- getitem samples s ;;
      v <- fdiv (b64_of_Z cnt) n ;;
      normalise samples rest n (setitem page_rank s v)
  end.

(** [sample_pagerank] with the ranks it returns in binary64; the draws
    and the counts are those of [sample_counts]. *)
Definition sample_pagerank (c : corpus) (damping_factor : Q) (n : Z)
  (rnd : nat -> nat) : result (dict float) :=
  samples <- sample_counts c damping_factor n rnd ;;
  normalise samples (keys samples) n [].

Fixpoint component_loop (c : corpus) (total_pages : nat)
  (current_page_ranks : dict float) (linking_pages : list page)
  (component : float) : result float :=
  match linking_pages with
  | [] => Ok component
  | linking_page :: rest =>
      links <- getitem c linking_page ;;
      let num_links := length links in
      r <- getitem current_page_ranks linking_page ;;
      term <- (if Nat.eqb num_links 0 then fdiv r (Z.of_nat total_pages)
               else fdiv r (Z.of_nat num_links)) ;;
      component_loop c total_pages current_page_ranks rest
        (PrimFloat.add component term)
  end.

Definition estimate_page_rank (c : corpus) (damping_factor : float)
  (total_pages : nat) (current_page_ranks : dict float)
  (linking_pages : list page) : result float :=
  component <- component_loop c total_pages current_page_ranks linking_pages
                 0%float ;;
  base <- fdiv (PrimFloat.sub 1%float damping_factor) (Z.of_nat total_pages) ;;
  Ok (PrimFloat.add base (PrimFloat.mul damping_factor component)).

Definition threshold : float := 0.001%float.

Definition DAMPING : float := 0.85%float.

Fixpoint round_loop (c : corpus) (damping_factor : float) (total_pages : nat)
  (lpd : dict (list page)) (todo : list page) (page_rank : dict float)
  (loop : bool) : result (dict float * bool) :=
  match todo with
  | [] => Ok (page_rank, loop)
  | p :: rest =>
      linking_pages <- getitem lpd p ;;
      estimate <- estimate_page_rank c damping_factor total_pages page_rank
                    linking_pages ;;
      current <- getitem page_rank p ;;
      let loop' :=
        if PrimFloat.ltb threshold (PrimFloat.sub current estimate)
           || PrimFloat.ltb threshold (PrimFloat.sub estimate current)
        then true else loop in
      round_loop c damping_factor total_pages lpd rest
        (setitem page_rank p estimate) loop'
  end.

Definition round (c : corpus) (damping_factor : float) (total_pages : nat)
  (lpd : dict (list page)) (page_rank : dict float)
  : result (dict float * bool) :=
  round_loop c damping_factor total_pages lpd (keys c) page_rank false.

Fixpoint while_loop (fuel : nat) (c : corpus) (damping_factor : float)
  (total_pages : nat) (lpd : dict (list page)) (page_rank : dict float)
  : option (result (dict float)) :=
  match fuel with
  | O => None
  | S fuel' =>
      match round c damping_factor total_pages lpd page_rank with
      | Raise e => Some (Raise e)
      | Ok (page_rank', loop) =>
          if loop
          then while_loop fuel' c damping_factor total_pages lpd page_rank'
          else Some (Ok page_rank')
      end
  end.

Definition iterate_pagerank (fuel : nat) (c : corpus) (damping_factor : float)
  : option (result (dict float)) :=
  match linking_pages_dict c with
  | Raise e => Some (Raise e)
  | Ok lpd =>
      let total_pages := length c in
      match fdiv (b64_of_Z 1) (Z.of_nat total_pages) with
      | Raise e => Some (Raise e)
      | Ok initial =>
          while_loop fuel c damping_factor total_pages lpd
            (fromkeys (keys c) initial)
      end
  end.

(** The ranks as binary64 quotients of the counts. *)
Definition rank_of_counts (n : Z) (samples : dict Z) : dict float :=
  map (fun kv => (fst kv, PrimFloat.div (b64_of_Z (snd kv)) (b64_of_Z n)))
    samples.

(** The rational number a finite float stands for (0 for the others). *)
Definition to_Q (x : float) : Q :=
  match Prim2SF x with
  | S754_finite s m e =>
      let v := inject_Z (Zpos m) * Qpower 2 e in
      if s then - v else v
  | _ => 0
  end.

End B64.

(** A ring of three pages and a fourth page that links into it. *)
Definition ring : corpus :=
  [("A", ["C"]); ("B", ["A"]); ("C", ["B"]); ("D", ["A"])]%string.

(** The largest binary64 float below 1. *)
Definition near_one : float := 0.9999999999999999%float.

(** The two tables the rounds on [ring] alternate between with the
    damping [near_one]. *)
Definition ring_high : dict float :=
  [("A"%string, 0.5%float); ("B"%string, 0.25%float); ("C"%string, 0.5%float);
   ("D"%string, PrimFloat.div (PrimFloat.sub 1 near_one) 4)].

Definition ring_low : dict float :=
  [("A"%string, 0.25%float); ("B"%string, 0.5%float); ("C"%string, 0.25%float);
   ("D"%string, PrimFloat.div (PrimFloat.sub 1 near_one) 4)].


(** ** [crawl] *)

(** The file system and the regular expression stay outside: a directory
    is given by its listing, each entry with the list of hrefs that
    [re.findall] returns for the contents of that file. *)
Definition directory := list (string * list string).

(** [s.endswith(suffix)]. *)
Definition endswith (s suffix : string) : bool :=
  let n := String.length s in
  let m := String.length suffix in
  Nat.leb m n && String.eqb (substring (n - m) m s) suffix.

(** [set(links) - {filename}]. *)
Definition own_links (filename : page) (links : list string) : list page :=
  filter (fun l => negb (String.eqb l filename)) (nodup string_dec links).

(** The loop [for filename in os.listdir(directory)]. *)
Fixpoint read_pages (listing : directory) (pages : corpus) : corpus :=
  match listing with
  | [] => pages
  | (filename, links) :: rest =>
      if negb (endswith filename ".html") then read_pages rest pages
      else read_pages rest (setitem pages filename (own_links filename links))
  end.

(** The loop [for filename in pages] that keeps the links to pages of the
    corpus. *)
Fixpoint keep_corpus_links (todo : list page) (pages : corpus) : result corpus :=
  match todo with
  | [] => Ok pages
  | filename :: rest =>
      links <- getitem pages filename ;;
      keep_corpus_links rest
        (setitem pages filename (filter (fun link => mem link (keys pages)) links))
  end.

Definition crawl (listing : directory) : result corpus :=
  let pages := read_pages listing [] in
  keep_corpus_links (keys pages) pages.

(** What the first loop of [crawl] keeps true of [pages]. *)
Definition read_invariant (listing : directory) (pages : corpus) : Prop :=
  NoDup (keys pages)
  /\ forall p ls,
      In (p, ls) pages ->
      endswith p ".html" = true
      /\ exists hrefs, In (p, hrefs) listing /\ ls = own_links p hrefs.

(** The links of an entry that point to pages of [K]. *)
Definition kept (K : list page) (e : page * list page) : page * list page :=
  (fst e, filter (fun link => mem link K) (snd e)).

(** Two corpora that differ only in the order in which the link sets list
    their pages. *)
Definition same_graph (c c' : corpus) : Prop :=
  Forall2 (fun x y => fst x = fst y /\ Permutation (snd x) (snd y)) c c'.

(** * Properties *)

(** ** Pages, sets and dictionaries *)

Lemma mem_In (k : page) (s : list page) : mem k s = true <-> In k s.
Proof.
  unfold mem. rewrite existsb_exists. split.
  - intros [x [Hx Hk]]. apply String.eqb_eq in Hk. now subst.
  - intros H. exists k. split; [assumption | apply String.eqb_refl].
Qed.

Lemma mem_false (k : page) (s : list page) : mem k s = false <-> ~ In k s.
Proof.
  rewrite <- mem_In. destruct (mem k s); split; congruence.
Qed.

Lemma nodupb_NoDup (l : list page) : nodupb l = true <-> NoDup l.
Proof.
  induction l as [|x r IH]; simpl.
  - split; [constructor | reflexivity].
  - rewrite andb_true_iff, negb_true_iff, mem_false, IH. split.
    + intros [H1 H2]. now constructor.
    + intros H. inversion H; subst. now split.
Qed.

Lemma NoDup_app_disjoint (l1 l2 : list page) (q : page) :
  NoDup (l1 ++ l2) -> In q l1 -> In q l2 -> False.
Proof.
  induction l1 as [|x r IH]; simpl; [tauto|].
  intros Hnd [->|H1] H2; inversion Hnd; subst.
  - match goal with Hn : ~ In q (r ++ l2) |- _ => apply Hn end.
    apply in_or_app. now right.
  - now apply IH.
Qed.

Section Dict.
Context {V : Type}.
Implicit Types (d : dict V) (k : page) (v : V).

Lemma keys_length d : length (keys d) = length d.
Proof. apply length_map. Qed.

Lemma values_length d : length (values d) = length d.
Proof. apply length_map. Qed.

Lemma getitem_In_keys d k : In k (keys d) -> exists v, getitem d k = Ok v.
Proof.
  induction d as [|[k' v'] r IH]; simpl; [tauto|].
  intros H. destruct (String.eqb_spec k k') as [->|Hne].
  - now exists v'.
  - destruct H as [H|H]; [congruence | auto].
Qed.

Lemma getitem_Ok_In d k v : getitem d k = Ok v -> In (k, v) d.
Proof.
  induction d as [|[k' v'] r IH]; simpl; [discriminate|].
  destruct (String.eqb_spec k k') as [->|Hne].
  - intros [= ->]. now left.
  - intros H. right. auto.
Qed.

Lemma getitem_Ok_keys d k v : getitem d k = Ok v -> In k (keys d).
Proof.
  intros H. apply getitem_Ok_In in H.
  apply (in_map fst) in H. exact H.
Qed.

Lemma getitem_values d k v : getitem d k = Ok v -> In v (values d).
Proof.
  intros H. apply getitem_Ok_In in H.
  apply (in_map snd) in H. exact H.
Qed.

Lemma getitem_not_In d k : ~ In k (keys d) -> getitem d k = Raise KeyError.
Proof.
  induction d as [|[k' v'] r IH]; simpl; [reflexivity|].
  intros H. destruct (String.eqb_spec k k') as [->|Hne]; [tauto|].
  apply IH. tauto.
Qed.

Lemma In_getitem d k v : NoDup (keys d) -> In (k, v) d -> getitem d k = Ok v.
Proof.
  induction d as [|[k' v'] r IH]; simpl; [tauto|].
  intros Hnd [H|H].
  - injection H as -> ->. now rewrite String.eqb_refl.
  - inversion Hnd; subst. destruct (String.eqb_spec k k') as [->|Hne].
    + exfalso. apply H2. apply (in_map fst) in H. exact H.
    + auto.
Qed.

Lemma keys_setitem d k v : In k (keys d) -> keys (setitem d k v) = keys d.
Proof.
  induction d as [|[k' v'] r IH]; simpl; [tauto|].
  intros H. destruct (String.eqb_spec k k') as [->|Hne]; simpl.
  - reflexivity.
  - f_equal. apply IH. destruct H; [congruence | assumption].
Qed.

Lemma keys_setitem_new d k v :
  ~ In k (keys d) -> keys (setitem d k v) = keys d ++ [k].
Proof.
  induction d as [|[k' v'] r IH]; simpl; [reflexivity|].
  intros H. destruct (String.eqb_spec k k') as [->|Hne]; simpl.
  - tauto.
  - f_equal. apply IH. tauto.
Qed.

Lemma getitem_setitem_same d k v : getitem (setitem d k v) k = Ok v.
Proof.
  induction d as [|[k' v'] r IH]; simpl.
  - now rewrite String.eqb_refl.
  - destruct (String.eqb_spec k k') as [->|Hne]; simpl.
    + now rewrite String.eqb_refl.
    + destruct (String.eqb_spec k k'); [congruence | exact IH].
Qed.

Lemma getitem_setitem_other d k k' v :
  k' <> k -> getitem (setitem d k v) k' = getitem d k'.
Proof.
  intros Hne. induction d as [|[k0 v0] r IH]; simpl.
  - destruct (String.eqb_spec k' k); [congruence | reflexivity].
  - destruct (String.eqb_spec k k0) as [->|Hk]; simpl.
    + destruct (String.eqb_spec k' k0); [congruence | reflexivity].
    + destruct (String.eqb_spec k' k0); [reflexivity | exact IH].
Qed.

Lemma keys_fromkeys (ks : list page) v : keys (fromkeys ks v) = ks.
Proof.
  unfold keys, fromkeys. rewrite map_map. simpl. apply map_id.
Qed.

Lemma values_fromkeys (ks : list page) v :
  values (fromkeys ks v) = repeat v (length ks).
Proof.
  induction ks as [|k r IH]; simpl; [reflexivity | now f_equal].
Qed.

Lemma getitem_fromkeys (ks : list page) k v :
  In k ks -> getitem (fromkeys ks v) k = Ok v.
Proof.
  induction ks as [|k' r IH]; simpl; [tauto|].
  intros H. destruct (String.eqb_spec k k') as [->|Hne]; [reflexivity|].
  apply IH. destruct H; [congruence | assumption].
Qed.

End Dict.

(** What [link_graph] checks. *)
Lemma link_graph_keys (c : corpus) : link_graph c = true -> NoDup (keys c).
Proof.
  unfold link_graph. rewrite andb_true_iff. intros [H _].
  now apply nodupb_NoDup.
Qed.

Lemma link_graph_links (c : corpus) (p : page) (links : list page) :
  link_graph c = true -> getitem c p = Ok links ->
  NoDup links /\ incl links (keys c).
Proof.
  unfold link_graph. rewrite andb_true_iff. intros [_ H] Hg.
  rewrite forallb_forall in H. specialize (H links (getitem_values _ _ _ Hg)).
  apply andb_true_iff in H. destruct H as [H1 H2]. split.
  - now apply nodupb_NoDup.
  - intros q Hq. rewrite forallb_forall in H2. apply mem_In. now apply H2.
Qed.

(** ** Numbers *)

Lemma Qnat_S (n : nat) : Qnat (S n) == Qnat n + 1.
Proof.
  unfold Qnat. rewrite Nat2Z.inj_succ. unfold Z.succ.
  rewrite inject_Z_plus. reflexivity.
Qed.

Lemma Qnat_nonneg (n : nat) : 0 <= Qnat n.
Proof.
  unfold Qnat. change 0 with (inject_Z 0). rewrite <- Zle_Qle. lia.
Qed.

Lemma Qnat_pos (n : nat) : n <> O -> 0 < Qnat n.
Proof.
  intros H. unfold Qnat. change 0 with (inject_Z 0). rewrite <- Zlt_Qlt. lia.
Qed.

Lemma Qzero_false (x : Q) : ~ x == 0 -> Qzero x = false.
Proof.
  intros H. unfold Qzero. destruct (Qeq_bool x 0) eqn:E; [|reflexivity].
  apply Qeq_bool_iff in E. contradiction.
Qed.

Lemma Qnat_nonzero (n : nat) : n <> O -> Qzero (Qnat n) = false.
Proof.
  intros H. apply Qzero_false. pose proof (Qnat_pos n H). lra.
Qed.

Lemma fdiv_Ok (x y : Q) : ~ y == 0 -> fdiv x y = Ok (x / y).
Proof.
  intros H. unfold fdiv. now rewrite Qzero_false.
Qed.

Lemma fdiv_Qnat (x : Q) (n : nat) : n <> O -> fdiv x (Qnat n) = Ok (x / Qnat n).
Proof.
  intros H. apply fdiv_Ok. pose proof (Qnat_pos n H). lra.
Qed.

Lemma Qltb_lt (x y : Q) : Qltb x y = true <-> x < y.
Proof.
  unfold Qltb. rewrite negb_true_iff. split.
  - intros H. apply Qnot_le_lt. intros Hle.
    apply Qle_bool_iff in Hle. congruence.
  - intros H. destruct (Qle_bool y x) eqn:E; [|reflexivity].
    apply Qle_bool_iff in E. lra.
Qed.

Lemma Qltb_ge (x y : Q) : Qltb x y = false <-> y <= x.
Proof.
  unfold Qltb. rewrite negb_false_iff. apply Qle_bool_iff.
Qed.

Lemma Qsum_repeat (v : Q) (n : nat) : Qsum (repeat v n) == Qnat n * v.
Proof.
  induction n as [|n IH].
  - simpl. unfold Qnat. simpl. ring.
  - cbn [repeat Qsum]. rewrite IH, Qnat_S. ring.
Qed.

Lemma Qsum_app (l1 l2 : list Q) : Qsum (l1 ++ l2) == Qsum l1 + Qsum l2.
Proof.
  induction l1 as [|x r IH]; simpl; [ring | rewrite IH; ring].
Qed.

Lemma Qsum_setitem (d : dict Q) (k : page) (v w : Q) :
  getitem d k = Ok v ->
  Qsum (values (setitem d k w)) == Qsum (values d) - v + w.
Proof.
  induction d as [|[k' v'] r IH]; simpl; [discriminate|].
  destruct (String.eqb_spec k k') as [->|Hne]; simpl.
  - intros [= ->]. ring.
  - intros H. rewrite (IH H). ring.
Qed.

(** ** [transition_model] *)

(** The loop that adds [link_chance] to the linked pages: it succeeds when
    the links are distinct keys of [dist], keeps the keys, adds to exactly
    the linked pages, and raises the total by [link_chance] per link. *)
Lemma add_link_chance_spec (links : list page) (link_chance : Q) :
  forall dist : dict Q,
    NoDup links -> incl links (keys dist) ->
    exists dist',
      add_link_chance dist links link_chance = Ok dist'
      /\ keys dist' = keys dist
      /\ (forall q v, getitem dist q = Ok v ->
            getitem dist' q = Ok (if mem q links then v + link_chance else v))
      /\ Qsum (values dist')
         == Qsum (values dist) + Qnat (length links) * link_chance.
Proof.
  induction links as [|lp rest IH]; intros dist Hnd Hincl.
  - exists dist. repeat split; auto.
    simpl. unfold Qnat. simpl. ring.
  - inversion Hnd as [|? ? Hnotin Hnd']; subst.
    assert (Hlp : In lp (keys dist)) by (apply Hincl; now left).
    destruct (getitem_In_keys dist lp Hlp) as [v0 Hv0].
    cbn [add_link_chance]. rewrite Hv0. cbn [bind].
    destruct (IH (setitem dist lp (v0 + link_chance))) as (dist' & Hrun & Hk & Hget & Hsum).
    + exact Hnd'.
    + rewrite keys_setitem by exact Hlp.
      intros q Hq. apply Hincl. now right.
    + exists dist'. split; [exact Hrun|]. split.
      * rewrite Hk. now apply keys_setitem.
      * split.
        -- intros q v Hq. cbn [mem existsb].
           destruct (String.eqb_spec q lp) as [->|Hne].
           ++ rewrite Hq in Hv0. injection Hv0 as ->.
              rewrite (Hget lp (v0 + link_chance)) by apply getitem_setitem_same.
              apply mem_false in Hnotin. fold (mem lp rest). now rewrite Hnotin.
           ++ apply Hget. rewrite getitem_setitem_other by exact Hne. exact Hq.
        -- rewrite Hsum, (Qsum_setitem dist lp v0) by exact Hv0.
           cbn [length]. rewrite Qnat_S. ring.
Qed.

Lemma getitem_nonempty {V : Type} (d : dict V) (k : page) (v : V) :
  getitem d k = Ok v -> length d <> O.
Proof.
  destruct d; simpl; [discriminate | intros _; discriminate].
Qed.

(** The linked case of [transition_model], shared by the claims below. *)
Lemma transition_model_links (c : corpus) (p : page) (d : Q) (links : list page) :
  link_graph c = true -> getitem c p = Ok links -> links <> [] ->
  exists dist,
    transition_model c p d = Ok dist
    /\ keys dist = keys c
    /\ (forall q, In q (keys c) ->
          getitem dist q =
            Ok (if mem q links
                then (1 - d) / Qnat (length c) + d / Qnat (length links)
                else (1 - d) / Qnat (length c)))
    /\ Qsum (values dist) == 1.
Proof.
  intros Hwf Hp Hne.
  destruct (link_graph_links c p links Hwf Hp) as [Hnd Hincl].
  assert (HN : length c <> O) by (eapply getitem_nonempty; eassumption).
  assert (HL : length links <> O) by (destruct links; simpl; congruence).
  unfold transition_model. rewrite Hp. cbn [bind].
  destruct (Nat.eqb_spec (length links) 0) as [E|_]; [contradiction|].
  rewrite (fdiv_Qnat _ _ HN), (fdiv_Qnat _ _ HL). cbn [bind].
  destruct (add_link_chance_spec links (d / Qnat (length links))
              (fromkeys (keys c) ((1 - d) / Qnat (length c))) Hnd)
    as (dist & Hrun & Hk & Hget & Hsum).
  { now rewrite keys_fromkeys. }
  exists dist. split; [exact Hrun|]. split.
  { now rewrite Hk, keys_fromkeys. }
  split.
  - intros q Hq. apply Hget. now apply getitem_fromkeys.
  - rewrite Hsum, values_fromkeys, Qsum_repeat, keys_length.
    pose proof (Qnat_pos _ HN). pose proof (Qnat_pos _ HL).
    field. split; lra.
Qed.

(** The dangling case of [transition_model]. *)
Lemma transition_model_no_links (c : corpus) (p : page) (d : Q) :
  getitem c p = Ok [] ->
  transition_model c p d = Ok (fromkeys (keys c) (1 / Qnat (length c))).
Proof.
  intros Hp. unfold transition_model. rewrite Hp. cbn [bind length Nat.eqb].
  rewrite fdiv_Qnat by (eapply getitem_nonempty; eassumption).
  reflexivity.
Qed.

(** On a link graph, [transition_model] returns a distribution over the
    pages of the corpus whose weights add up to 1, whatever the page. *)
Lemma transition_model_dist (c : corpus) (p : page) (d : Q) :
  link_graph c = true -> In p (keys c) ->
  exists dist,
    transition_model c p d = Ok dist
    /\ keys dist = keys c /\ Qsum (values dist) == 1.
Proof.
  intros Hwf Hp. destruct (getitem_In_keys c p Hp) as [links Hl].
  destruct links as [|l ls].
  - rewrite (transition_model_no_links c p d Hl).
    eexists. split; [reflexivity|]. split; [apply keys_fromkeys|].
    rewrite values_fromkeys, Qsum_repeat, keys_length.
    pose proof (Qnat_pos _ (getitem_nonempty _ _ _ Hl)). field. lra.
  - destruct (transition_model_links c p d (l :: ls) Hwf Hl) as (dist & H1 & H2 & _ & H4);
      [discriminate|].
    exists dist. auto.
Qed.

(** C3: on a non-empty link graph, for a page [p] with a non-empty link set
    and any damping [d], [transition_model] gives [(1-d)/total_pages] to
    every page outside [graph[p]] and [(1-d)/total_pages + d/|graph[p]|] to
    every page of [graph[p]]; the distribution has exactly the keys of the
    graph and its values sum to 1. *)
Theorem transition_model_linked_page (c : corpus) (p : page) (d : Q)
  (links : list page) :
  link_graph c = true -> getitem c p = Ok links -> links <> [] ->
  exists dist,
    transition_model c p d = Ok dist
    /\ keys dist = keys c
    /\ (forall q, In q (keys c) -> In q links ->
          getitem dist q =
            Ok ((1 - d) / Qnat (length c) + d / Qnat (length links)))
    /\ (forall q, In q (keys c) -> ~ In q links ->
          getitem dist q = Ok ((1 - d) / Qnat (length c)))
    /\ Qsum (values dist) == 1.
Proof.
  intros Hwf Hp Hne.
  destruct (transition_model_links c p d links Hwf Hp Hne)
    as (dist & Hrun & Hk & Hget & Hsum).
  exists dist. repeat split; try assumption.
  - intros q Hq Hin. rewrite (Hget q Hq).
    apply mem_In in Hin. now rewrite Hin.
  - intros q Hq Hin. rewrite (Hget q Hq).
    apply mem_false in Hin. now rewrite Hin.
Qed.

Lemma transition_model_linked_page_witness :
  exists dist,
    transition_model chain "A"%string DAMPING = Ok dist
    /\ keys dist = keys chain
    /\ (forall q, In q (keys chain) -> In q ["B"%string] ->
          getitem dist q =
            Ok ((1 - DAMPING) / Qnat (length chain)
                + DAMPING / Qnat (length ["B"%string])))
    /\ (forall q, In q (keys chain) -> ~ In q ["B"%string] ->
          getitem dist q = Ok ((1 - DAMPING) / Qnat (length chain)))
    /\ Qsum (values dist) == 1.
Proof.
  apply (transition_model_linked_page chain "A"%string DAMPING ["B"%string]).
  - reflexivity.
  - reflexivity.
  - discriminate.
Defined.

(** C4: for a dangling page [p] of a graph, [transition_model] is the
    uniform distribution giving [1/total_pages] to every page of the graph,
    whatever the damping. *)
Theorem transition_model_dangling_page (c : corpus) (p : page) (d : Q) :
  getitem c p = Ok [] ->
  transition_model c p d = Ok (fromkeys (keys c) (1 / Qnat (length c)))
  /\ (forall q, In q (keys c) ->
        getitem (fromkeys (keys c) (1 / Qnat (length c))) q
        = Ok (1 / Qnat (length c)))
  /\ (forall d', transition_model c p d' = transition_model c p d).
Proof.
  intros Hp. split; [now apply transition_model_no_links|]. split.
  - intros q Hq. now apply getitem_fromkeys.
  - intros d'. now rewrite !transition_model_no_links.
Qed.

Lemma transition_model_dangling_page_witness :
  transition_model chain "C"%string DAMPING
  = Ok (fromkeys (keys chain) (1 / Qnat (length chain)))
  /\ (forall q, In q (keys chain) ->
        getitem (fromkeys (keys chain) (1 / Qnat (length chain))) q
        = Ok (1 / Qnat (length chain)))
  /\ (forall d', transition_model chain "C"%string d'
               = transition_model chain "C"%string DAMPING).
Proof.
  apply (transition_model_dangling_page chain "C"%string DAMPING).
  reflexivity.
Defined.

(** ** The backlink index *)

Lemma linking_pages_of_filter (c : corpus) (p : page) (todo : list page) :
  incl todo (keys c) ->
  linking_pages_of c p todo = Ok (filter (is_linking c p) todo).
Proof.
  induction todo as [|q rest IH]; intros Hincl; [reflexivity|].
  assert (Hq : In q (keys c)) by (apply Hincl; now left).
  destruct (getitem_In_keys c q Hq) as [links Hl].
  cbn [linking_pages_of filter]. unfold is_linking at 1.
  rewrite Hl, IH by (intros x Hx; apply Hincl; now right).
  cbn [bind]. reflexivity.
Qed.

Lemma linking_pages_loop_map (c : corpus) (todo : list page) :
  linking_pages_loop c todo
  = Ok (map (fun p => (p, filter (is_linking c p) (keys c))) todo).
Proof.
  induction todo as [|p rest IH]; [reflexivity|].
  cbn [linking_pages_loop map].
  rewrite linking_pages_of_filter by apply incl_refl.
  rewrite IH. reflexivity.
Qed.

Lemma linking_pages_dict_map (c : corpus) :
  linking_pages_dict c
  = Ok (map (fun p => (p, filter (is_linking c p) (keys c))) (keys c)).
Proof. apply linking_pages_loop_map. Qed.

Lemma getitem_map_keys {V : Type} (f : page -> V) (ks : list page) (k : page) :
  In k ks -> getitem (map (fun p => (p, f p)) ks) k = Ok (f k).
Proof.
  induction ks as [|k' r IH]; simpl; [tauto|].
  intros H. destruct (String.eqb_spec k k') as [->|Hne]; [reflexivity|].
  apply IH. destruct H; [congruence | assumption].
Qed.

Lemma keys_map_keys {V : Type} (f : page -> V) (ks : list page) :
  keys (map (fun p => (p, f p)) ks) = ks.
Proof.
  unfold keys. rewrite map_map. simpl. apply map_id.
Qed.

Lemma is_linking_iff (c : corpus) (p q : page) (links : list page) :
  getitem c q = Ok links ->
  is_linking c p q = true <-> In p links \/ links = [].
Proof.
  intros Hl. unfold is_linking. rewrite Hl, orb_true_iff, mem_In.
  destruct links; simpl; split; intros [H|H]; auto; try discriminate; tauto.
Qed.

(** C6: the backlink index built by [iterate_pagerank] holds, for pages
    [p] and [q] of the graph, [q] among the backlinks of [p] exactly when
    [p] is in [graph[q]] or [graph[q]] is empty; a dangling page is a
    backlink of every page, itself included. *)
Theorem linking_pages_dict_spec (c : corpus) :
  exists lpd,
    linking_pages_dict c = Ok lpd
    /\ keys lpd = keys c
    /\ (forall p q links,
          In p (keys c) -> getitem c q = Ok links ->
          exists bl, getitem lpd p = Ok bl
                     /\ (In q bl <-> In p links \/ links = []))
    /\ (forall p q,
          In p (keys c) -> getitem c q = Ok [] ->
          exists bl, getitem lpd p = Ok bl /\ In q bl).
Proof.
  eexists. split; [apply linking_pages_dict_map|].
  split; [apply keys_map_keys|].
  assert (H : forall p q links,
             In p (keys c) -> getitem c q = Ok links ->
             getitem (map (fun p => (p, filter (is_linking c p) (keys c))) (keys c)) p
             = Ok (filter (is_linking c p) (keys c))
             /\ (In q (filter (is_linking c p) (keys c)) <-> In p links \/ links = [])).
  { intros p q links Hp Hq. split.
    - now apply (getitem_map_keys (fun p => filter (is_linking c p) (keys c))).
    - rewrite filter_In, (is_linking_iff c p q links Hq).
      pose proof (getitem_Ok_keys _ _ _ Hq). tauto. }
  split.
  - intros p q links Hp Hq. destruct (H p q links Hp Hq) as [H1 H2].
    eexists. split; [exact H1 | exact H2].
  - intros p q Hp Hq. destruct (H p q [] Hp Hq) as [H1 H2].
    eexists. split; [exact H1 | apply H2; now right].
Qed.

Lemma linking_pages_dict_spec_witness :
  exists lpd,
    linking_pages_dict chain = Ok lpd
    /\ keys lpd = keys chain
    /\ (forall p q links,
          In p (keys chain) -> getitem chain q = Ok links ->
          exists bl, getitem lpd p = Ok bl
                     /\ (In q bl <-> In p links \/ links = []))
    /\ (forall p q,
          In p (keys chain) -> getitem chain q = Ok [] ->
          exists bl, getitem lpd p = Ok bl /\ In q bl).
Proof.
  apply (linking_pages_dict_spec chain).
Defined.

(** ** [sample_pagerank] *)

Lemma random_choice_In (seq : list page) (r : nat) :
  seq <> [] -> exists p, random_choice seq r = Ok p /\ In p seq.
Proof.
  destruct seq as [|x l]; [congruence|]. intros _.
  eexists. split; [reflexivity|].
  apply nth_In. apply Nat.mod_upper_bound. discriminate.
Qed.

Lemma random_choices_In (population : list page) (weights : list Q) (r : nat) :
  population <> [] -> 0 < Qsum weights ->
  exists p, random_choices population weights r = Ok p /\ In p population.
Proof.
  destruct population as [|x l]; [congruence|]. intros _ Hw.
  unfold random_choices.
  destruct (Qle_bool (Qsum weights) 0) eqn:E.
  - apply Qle_bool_iff in E. lra.
  - eexists. split; [reflexivity|].
    apply nth_In. apply Nat.mod_upper_bound. discriminate.
Qed.

Lemma Zsum_setitem (d : dict Z) (k : page) (v w : Z) :
  getitem d k = Ok v ->
  Zsum (values (setitem d k w)) = (Zsum (values d) - v + w)%Z.
Proof.
  induction d as [|[k' v'] r IH]; simpl; [discriminate|].
  destruct (String.eqb_spec k k') as [->|Hne]; simpl.
  - intros [= ->]. lia.
  - intros H. rewrite (IH H). lia.
Qed.

(** One draw: [samples[page] += 1] raises the count of [page] by one,
    leaves every other count alone, and so raises the total by one. *)
Lemma incr_spec (samples : dict Z) (p : page) :
  In p (keys samples) ->
  exists v samples',
    getitem samples p = Ok v
    /\ incr samples p = Ok samples'
    /\ keys samples' = keys samples
    /\ getitem samples' p = Ok (v + 1)%Z
    /\ (forall q, q <> p -> getitem samples' q = getitem samples q)
    /\ Zsum (values samples') = (Zsum (values samples) + 1)%Z.
Proof.
  intros Hp. destruct (getitem_In_keys samples p Hp) as [v Hv].
  exists v, (setitem samples p (v + 1)%Z). unfold incr. rewrite Hv.
  repeat split.
  - now apply keys_setitem.
  - apply getitem_setitem_same.
  - intros q Hq. now apply getitem_setitem_other.
  - rewrite (Zsum_setitem samples p v) by exact Hv. lia.
Qed.

Lemma keys_nonempty {V : Type} (d : dict V) : d <> [] -> keys d <> [].
Proof. destruct d; simpl; congruence. Qed.

(** The sampling loop: [k] draws add [k] to the total of the counts. *)
Lemma sample_loop_spec (c : corpus) (d : Q) (rnd : nat -> nat) :
  link_graph c = true -> c <> [] ->
  forall (k s : nat) (dist : dict Q) (samples : dict Z),
    keys dist = keys c -> Qsum (values dist) == 1 -> keys samples = keys c ->
    exists samples',
      sample_loop c d rnd k s dist samples = Ok samples'
      /\ keys samples' = keys c
      /\ Zsum (values samples') = (Zsum (values samples) + Z.of_nat k)%Z.
Proof.
  intros Hwf Hne. induction k as [|k IH]; intros s dist samples Hkd Hsum Hks.
  - exists samples. cbn. repeat split; [assumption | lia].
  - cbn [sample_loop].
    destruct (random_choices_In (keys dist) (values dist) (rnd (S s)))
      as (p & Hrun & Hp).
    { rewrite Hkd. now apply keys_nonempty. }
    { rewrite Hsum. reflexivity. }
    rewrite Hrun. cbn [bind]. rewrite Hkd in Hp.
    destruct (transition_model_dist c p d Hwf Hp) as (dist' & Htm & Hkd' & Hsum').
    rewrite Htm. cbn [bind].
    destruct (incr_spec samples p) as (v & samples1 & _ & Hincr & Hk1 & _ & _ & Hz1).
    { now rewrite Hks. }
    rewrite Hincr. cbn [bind].
    destruct (IH (S s) dist' samples1 Hkd' Hsum') as (samples' & Hloop & Hk' & Hz').
    { now rewrite Hk1. }
    exists samples'. split; [exact Hloop|]. split; [exact Hk'|].
    rewrite Hz', Hz1. lia.
Qed.

Lemma Zsum_repeat_0 (n : nat) : Zsum (repeat 0%Z n) = 0%Z.
Proof. induction n; simpl; [reflexivity | assumption]. Qed.

(** The counts at the end of sampling: one count per page, [n] in total. *)
Lemma sample_counts_spec (c : corpus) (d : Q) (n : Z) (rnd : nat -> nat) :
  link_graph c = true -> c <> [] -> (1 <= n)%Z ->
  exists samples,
    sample_counts c d n rnd = Ok samples
    /\ keys samples = keys c
    /\ Zsum (values samples) = n.
Proof.
  intros Hwf Hne Hn. unfold sample_counts.
  destruct (random_choice_In (keys c) (rnd O) (keys_nonempty c Hne)) as (p & Hrun & Hp).
  rewrite Hrun. cbn [bind].
  destruct (transition_model_dist c p d Hwf Hp) as (dist & Htm & Hkd & Hsum).
  rewrite Htm. cbn [bind].
  destruct (incr_spec (fromkeys (keys c) 0%Z) p) as (v & samples1 & _ & Hincr & Hk1 & _ & _ & Hz1).
  { now rewrite keys_fromkeys. }
  rewrite Hincr. cbn [bind].
  rewrite keys_fromkeys in Hk1.
  destruct (sample_loop_spec c d rnd Hwf Hne (Z.to_nat (n - 1)) O dist samples1 Hkd Hsum Hk1)
    as (samples & Hloop & Hk & Hz).
  exists samples. split; [exact Hloop|]. split; [exact Hk|].
  rewrite Hz, Hz1, values_fromkeys, Zsum_repeat_0. lia.
Qed.

Lemma setitem_new {V : Type} (d : dict V) (k : page) (v : V) :
  ~ In k (keys d) -> setitem d k v = d ++ [(k, v)].
Proof.
  induction d as [|[k' v'] r IH]; simpl; [reflexivity|].
  intros H. destruct (String.eqb_spec k k') as [->|Hne]; [tauto|].
  f_equal. apply IH. tauto.
Qed.

Lemma normalise_spec (samples : dict Z) (n : Z) :
  n <> 0%Z -> NoDup (keys samples) ->
  forall (done todo : dict Z) (page_rank : dict Q),
    samples = done ++ todo ->
    page_rank = rank_of_counts n done ->
    normalise samples (keys todo) n page_rank = Ok (rank_of_counts n samples).
Proof.
  intros Hn Hnd done todo. revert done.
  induction todo as [|[s cnt] rest IH]; intros done page_rank Hs Hpr.
  - rewrite app_nil_r in Hs. subst. reflexivity.
  - cbn [keys map fst normalise].
    assert (Hget : getitem samples s = Ok cnt).
    { apply In_getitem; [exact Hnd|]. rewrite Hs. apply in_or_app. right. now left. }
    rewrite Hget. cbn [bind].
    rewrite fdiv_Ok.
    2:{ change 0 with (inject_Z 0). rewrite inject_Z_injective. exact Hn. }
    cbn [bind]. apply (IH (done ++ [(s, cnt)])).
    + rewrite <- app_assoc. exact Hs.
    + assert (Hnew : ~ In s (keys page_rank)).
      { subst page_rank. unfold rank_of_counts, keys. rewrite map_map. cbn [fst].
        subst samples. unfold keys in Hnd. rewrite map_app in Hnd.
        cbn [map fst] in Hnd. apply NoDup_remove_2 in Hnd.
        intros Hin. apply Hnd. apply in_or_app. now left. }
      rewrite (setitem_new _ _ _ Hnew). subst page_rank.
      unfold rank_of_counts. rewrite map_app. reflexivity.
Qed.

Lemma keys_rank_of_counts (n : Z) (samples : dict Z) :
  keys (rank_of_counts n samples) = keys samples.
Proof.
  unfold rank_of_counts, keys. rewrite map_map. reflexivity.
Qed.


(** A run of [sample_pagerank] on a non-empty link graph with [n >= 1]. *)
Lemma sample_pagerank_spec (c : corpus) (d : Q) (n : Z) (rnd : nat -> nat) :
  link_graph c = true -> c <> [] -> (1 <= n)%Z ->
  exists samples,
    sample_counts c d n rnd = Ok samples
    /\ keys samples = keys c
    /\ Zsum (values samples) = n
    /\ sample_pagerank c d n rnd = Ok (rank_of_counts n samples).
Proof.
  intros Hwf Hne Hn.
  destruct (sample_counts_spec c d n rnd Hwf Hne Hn) as (samples & Hrun & Hk & Hz).
  exists samples. repeat split; try assumption.
  unfold sample_pagerank. rewrite Hrun. cbn [bind].
  apply (normalise_spec samples n) with (done := []).
  - lia.
  - rewrite Hk. now apply link_graph_keys.
  - reflexivity.
  - reflexivity.
Qed.





(** ** One round of [iterate_pagerank] *)

Lemma bind_Ok {A B : Type} (m : result A) (f : A -> result B) (b : B) :
  bind m f = Ok b -> exists a, m = Ok a /\ f a = Ok b.
Proof.
  destruct m as [a|e]; simpl; [|discriminate]. intros H. now exists a.
Qed.

Ltac bind_inv H :=
  let a := fresh "a" in
  let Ha := fresh "Ha" in
  apply bind_Ok in H; destruct H as (a & Ha & H).

Lemma within_threshold_iff (old new : Q) :
  within_threshold old new = true <-> Qabs (old - new) <= threshold.
Proof.
  unfold within_threshold.
  rewrite negb_true_iff, orb_false_iff, !Qltb_ge, Qabs_Qle_condition.
  split; intros [H1 H2]; split; lra.
Qed.

Section Round.
Variables (c : corpus) (d : Q) (N : nat) (lpd : dict (list page)).

Lemma round_loop_app (l1 l2 : list page) :
  forall (pr : dict Q) (loop : bool),
    round_loop c d N lpd (l1 ++ l2) pr loop
    = (st <- round_loop c d N lpd l1 pr loop ;;
       round_loop c d N lpd l2 (fst st) (snd st)).
Proof.
  induction l1 as [|p r IH]; intros pr loop; [reflexivity|].
  cbn [app round_loop].
  destruct (getitem lpd p) as [bl|e]; [|reflexivity]. cbn [bind].
  destruct (estimate_page_rank c d N pr bl) as [est|e]; [|reflexivity].
  cbn [bind]. destruct (getitem pr p) as [cur|e]; [|reflexivity].
  cbn [bind]. apply IH.
Qed.

(** What one pass over [todo] does to the table and to the flag. *)
Lemma round_loop_spec (todo : list page) :
  forall (pr : dict Q) (loop : bool) (pr' : dict Q) (loop' : bool),
    NoDup todo ->
    round_loop c d N lpd todo pr loop = Ok (pr', loop') ->
    keys pr' = keys pr
    /\ (forall q, ~ In q todo -> getitem pr' q = getitem pr q)
    /\ (loop' = false <->
        loop = false
        /\ forall p, In p todo ->
             exists old new,
               getitem pr p = Ok old /\ getitem pr' p = Ok new
               /\ Qabs (old - new) <= threshold).
Proof.
  induction todo as [|p rest IH]; intros pr loop pr' loop' Hnd H.
  - cbn in H. injection H as <- <-.
    split; [reflexivity|]. split; [reflexivity|].
    split; [intros Hl; split; [exact Hl | intros p []] | intros [Hl _]; exact Hl].
  - inversion Hnd as [|? ? Hnotin Hnd']; subst.
    cbn [round_loop] in H.
    bind_inv H. rename a into bl. bind_inv H. rename a into est.
    bind_inv H. rename a into cur.
    destruct (IH _ _ _ _ Hnd' H) as (Hk & Hother & Hflag).
    assert (Hp' : getitem pr' p = Ok est).
    { rewrite (Hother p Hnotin). apply getitem_setitem_same. }
    split.
    { rewrite Hk. apply keys_setitem. eapply getitem_Ok_keys; eassumption. }
    split.
    { intros q Hq. rewrite Hother by (intros Hin; apply Hq; now right).
      apply getitem_setitem_other. intros ->. apply Hq. now left. }
    rewrite Hflag.
    assert (Hw : Qltb threshold (cur - est) || Qltb threshold (est - cur)
                 = negb (within_threshold cur est)).
    { unfold within_threshold. now rewrite negb_involutive. }
    rewrite Hw. clear Hw.
    split.
    + intros [Hl Hall].
      destruct (within_threshold cur est) eqn:Hw; [|discriminate].
      cbn in Hl. split; [exact Hl|].
      intros q [<-|Hq].
      * exists cur, est. repeat split; try assumption.
        now apply within_threshold_iff.
      * destruct (Hall q Hq) as (old & new & H1 & H2 & H3).
        exists old, new. repeat split; try assumption.
        rewrite <- H1. symmetry. apply getitem_setitem_other.
        intros ->. contradiction.
    + intros [Hl Hall]. split.
      * destruct (Hall p (or_introl eq_refl)) as (old & new & H1 & H2 & H3).
        rewrite Ha1 in H1. rewrite Hp' in H2.
        injection H1 as <-. injection H2 as <-.
        apply within_threshold_iff in H3. rewrite H3. exact Hl.
      * intros q Hq.
        destruct (Hall q (or_intror Hq)) as (old & new & H1 & H2 & H3).
        exists old, new. repeat split; try assumption.
        rewrite <- H1. apply getitem_setitem_other.
        intros ->. contradiction.
Qed.


End Round.

(** ** In-place update *)

(** The rounds do not read a snapshot: on the chain [A -> B -> C], in the
    first round of [iterate_pagerank], the estimate of [B] reads the value
    of [A] written a moment earlier in the same round, not the
    start-of-round value. *)
Lemma round_not_snapshot :
  let lpd := [("A", ["C"]); ("B", ["A"; "C"]); ("C", ["B"; "C"])]%string in
  let pr0 := fromkeys (keys chain) (1 / Qnat (length chain)) in
  linking_pages_dict chain = Ok lpd
  /\ exists pr1 loop,
      round chain DAMPING (length chain) lpd pr0 = Ok (pr1, loop)
      /\ ~ reads_previous_snapshot chain DAMPING (length chain) lpd pr0 pr1.
Proof.
  split; [reflexivity|].
  eexists. eexists. split; [vm_compute; reflexivity|].
  intros H.
  destruct (H "B"%string ["A"; "C"]%string) as (e & v & He & Hv & Heq).
  - simpl. tauto.
  - reflexivity.
  - vm_compute in He. vm_compute in Hv.
    injection He as <-. injection Hv as <-.
    vm_compute in Heq. discriminate Heq.
Qed.

(** How a round proceeds: it updates the one table in place, page by page
    in corpus order.  When page [p] is reached the table [mid] holds, for the
    pages before [p], the values this round has written, and for all other
    pages the values from the start of the round; the estimate of [p] is
    computed from [mid] and is the value the round leaves at [p]. *)
Theorem round_in_place (c : corpus) (d : Q) (N : nat) (lpd : dict (list page))
  (pre post : list page) (p : page) (pr pr' : dict Q) (loop : bool) :
  NoDup (keys c) -> keys c = pre ++ p :: post ->
  round c d N lpd pr = Ok (pr', loop) ->
  exists mid loop_mid bl e,
    round_loop c d N lpd pre pr false = Ok (mid, loop_mid)
    /\ getitem lpd p = Ok bl
    /\ estimate_page_rank c d N mid bl = Ok e
    /\ getitem pr' p = Ok e
    /\ (forall q, In q pre -> getitem mid q = getitem pr' q)
    /\ (forall q, ~ In q pre -> getitem mid q = getitem pr q).
Proof.
  intros Hnd Hsplit H. unfold round in H. rewrite Hsplit in H, Hnd.
  rewrite round_loop_app in H. bind_inv H. destruct a as [mid loop_mid].
  cbn [fst snd] in H.
  pose proof (NoDup_app_remove_r _ _ Hnd) as Hpre.
  pose proof (NoDup_app_remove_l _ _ Hnd) as Hpost.
  destruct (round_loop_spec c d N lpd pre _ _ _ _ Hpre Ha) as (_ & Hmid & _).
  destruct (round_loop_spec c d N lpd (p :: post) _ _ _ _ Hpost H) as (_ & Hfin & _).
  cbn [round_loop] in H.
  bind_inv H. rename a into bl. bind_inv H. rename a into e. bind_inv H.
  inversion Hpost as [|? ? Hnotin Hpost']; subst.
  destruct (round_loop_spec c d N lpd post _ _ _ _ Hpost' H) as (_ & Hrest & _).
  exists mid, loop_mid, bl, e. repeat split; try assumption.
  - rewrite (Hrest p Hnotin). apply getitem_setitem_same.
  - intros q Hq. symmetry. apply Hfin. intros Hin.
    exact (NoDup_app_disjoint pre (p :: post) q Hnd Hq Hin).
Qed.

Lemma round_in_place_witness :
  exists mid loop_mid bl e,
    round_loop two DAMPING 2 [("A", ["B"]); ("B", ["A"])]%string ["A"%string]
      (fromkeys (keys two) (1 / Qnat 2)) false = Ok (mid, loop_mid)
    /\ getitem [("A", ["B"]); ("B", ["A"])]%string "B"%string = Ok bl
    /\ estimate_page_rank two DAMPING 2 mid bl = Ok e
    /\ getitem [("A"%string, 20000 # 40000); ("B"%string, 400000000 # 800000000)]
         "B"%string = Ok e
    /\ (forall q, In q ["A"%string] ->
          getitem mid q
          = getitem [("A"%string, 20000 # 40000); ("B"%string, 400000000 # 800000000)] q)
    /\ (forall q, ~ In q ["A"%string] ->
          getitem mid q = getitem (fromkeys (keys two) (1 / Qnat 2)) q).
Proof.
  apply (round_in_place two DAMPING 2 [("A", ["B"]); ("B", ["A"])]%string
           ["A"%string] [] "B"%string (fromkeys (keys two) (1 / Qnat 2))
           [("A"%string, 20000 # 40000); ("B"%string, 400000000 # 800000000)] false).
  - apply nodupb_NoDup. reflexivity.
  - reflexivity.
  - vm_compute. reflexivity.
Defined.



(** ** The empty graph *)

(** C2, as stated, fails: on the empty graph neither estimator raises
    [EmptyGraphError]; [sample_pagerank] raises [IndexError] and
    [iterate_pagerank] raises [ZeroDivisionError]. *)
Lemma empty_graph_other_errors :
  sample_pagerank [] DAMPING SAMPLES (fun _ => O) = Raise IndexError
  /\ iterate_pagerank 1 [] DAMPING = Some (Raise ZeroDivisionError)
  /\ sample_pagerank [] DAMPING SAMPLES (fun _ => O) <> Raise EmptyGraphError
  /\ iterate_pagerank 1 [] DAMPING <> Some (Raise EmptyGraphError).
Proof.
  repeat split; try reflexivity; vm_compute; discriminate.
Qed.

(** C2, amended: on the empty graph both estimators raise and return no
    table.  [sample_pagerank] raises [IndexError] at its first statement,
    the choice of the start page; [iterate_pagerank] raises
    [ZeroDivisionError] at [1 / total_pages], after the (empty) backlink
    index is built and before the first round, whatever the fuel. *)
Theorem empty_graph_raises (d : Q) (n : Z) (rnd : nat -> nat) (fuel : nat) :
  random_choice (keys ([] : corpus)) (rnd O) = Raise IndexError
  /\ sample_pagerank [] d n rnd = Raise IndexError
  /\ linking_pages_dict [] = Ok []
  /\ fdiv 1 (Qnat (length ([] : corpus))) = Raise ZeroDivisionError
  /\ iterate_pagerank fuel [] d = Some (Raise ZeroDivisionError).
Proof.
  repeat split.
Qed.

(** ** The single-page graph *)

Lemma single_counts (samples : dict Z) (n : Z) :
  keys samples = keys single -> Zsum (values samples) = n ->
  samples = [("A"%string, n)].
Proof.
  destruct samples as [|[k v] [|? ?]]; cbn; try discriminate.
  intros [= ->] <-. f_equal. f_equal. lia.
Qed.

(** C9: for the single-page graph [{A: {}}] and damping 0.85, both
    estimators return [{A: 1}]: [sample_pagerank] for every [n >= 1] and
    every outcome of the random source, [iterate_pagerank] as soon as it is
    given fuel for one round. *)
Theorem single_page_rank (n : Z) (rnd : nat -> nat) (fuel : nat) :
  (1 <= n)%Z ->
  (exists v, sample_pagerank single DAMPING n rnd = Ok [("A"%string, v)]
             /\ v == 1)
  /\ (exists v, iterate_pagerank (S fuel) single DAMPING
                = Some (Ok [("A"%string, v)])
                /\ v == 1).
Proof.
  intros Hn. split.
  - destruct (sample_pagerank_spec single DAMPING n rnd) as (samples & _ & Hk & Hz & Hrun);
      [reflexivity | discriminate | exact Hn |].
    rewrite (single_counts samples n Hk Hz) in Hrun.
    exists (inject_Z n / inject_Z n). split; [exact Hrun|].
    assert (0 < inject_Z n) by (change 0 with (inject_Z 0); rewrite <- Zlt_Qlt; lia).
    field. lra.
  - eexists. split; [vm_compute; reflexivity|]. reflexivity.
Qed.

Lemma single_page_rank_witness :
  (exists v, sample_pagerank single DAMPING SAMPLES (fun k => k)
             = Ok [("A"%string, v)] /\ v == 1)
  /\ (exists v, iterate_pagerank 1 single DAMPING = Some (Ok [("A"%string, v)])
                /\ v == 1).
Proof.
  apply (single_page_rank SAMPLES (fun k => k) O). unfold SAMPLES. lia.
Defined.

(** ** The rounds as a function of the table *)

Lemma val_Ok (T : dict Q) (q : page) (v : Q) : getitem T q = Ok v -> val T q = v.
Proof. unfold val. now intros ->. Qed.

Lemma getitem_val (T : dict Q) (q : page) :
  In q (keys T) -> getitem T q = Ok (val T q).
Proof.
  intros H. destruct (getitem_In_keys T q H) as [v Hv].
  now rewrite (val_Ok _ _ _ Hv).
Qed.

Lemma val_setitem (T : dict Q) (p q : page) (e : Q) :
  val (setitem T p e) q = if String.eqb q p then e else val T q.
Proof.
  unfold val. destruct (String.eqb_spec q p) as [->|Hne].
  - now rewrite getitem_setitem_same.
  - now rewrite getitem_setitem_other.
Qed.

Section Pure.
Variables (c : corpus) (d : Q).
Hypothesis Hne : length c <> O.

Lemma component_loop_pure (T : dict Q) (bl : list page) :
  incl bl (keys c) -> incl bl (keys T) ->
  forall acc,
    component_loop c (length c) T bl acc
    = Ok (fold_left (fun acc q => acc + val T q / Qnat (outdegree c q)) bl acc).
Proof.
  induction bl as [|q rest IH]; intros Hc HT acc; [reflexivity|].
  assert (Hqc : In q (keys c)) by (apply Hc; now left).
  assert (HqT : In q (keys T)) by (apply HT; now left).
  destruct (getitem_In_keys c q Hqc) as [links Hl].
  cbn [component_loop fold_left]. rewrite Hl, (getitem_val T q HqT).
  cbn [bind]. unfold outdegree, links_of. rewrite Hl.
  destruct (Nat.eqb_spec (length links) 0) as [E|E].
  - rewrite fdiv_Qnat by exact Hne. cbn [bind].
    apply IH; intros x Hx; [apply Hc | apply HT]; now right.
  - rewrite fdiv_Qnat by exact E. cbn [bind].
    apply IH; intros x Hx; [apply Hc | apply HT]; now right.
Qed.

Lemma estimate_page_rank_pure (T : dict Q) (bl : list page) :
  incl bl (keys c) -> incl bl (keys T) ->
  estimate_page_rank c d (length c) T bl = Ok (estimate c d T bl).
Proof.
  intros Hc HT. unfold estimate_page_rank.
  rewrite component_loop_pure by assumption. cbn [bind].
  rewrite fdiv_Qnat by exact Hne. reflexivity.
Qed.

Lemma backlinks_incl (p : page) : incl (backlinks c p) (keys c).
Proof. intros q Hq. apply filter_In in Hq. tauto. Qed.

Lemma keys_sweep (todo : list page) :
  forall T, incl todo (keys T) -> keys (sweep c d todo T) = keys T.
Proof.
  induction todo as [|p rest IH]; intros T Hin; [reflexivity|].
  cbn [sweep]. assert (Hp : In p (keys T)) by (apply Hin; now left).
  rewrite IH; rewrite keys_setitem by exact Hp; [reflexivity|].
  intros x Hx. apply Hin. now right.
Qed.

(** On a table over the pages of the corpus, a pass of the loop never
    raises: it returns the swept table and the flag. *)
Lemma round_loop_pure (lpd : dict (list page)) (todo : list page) :
  linking_pages_dict c = Ok lpd ->
  incl todo (keys c) ->
  forall (T : dict Q) (loop : bool),
    keys T = keys c ->
    round_loop c d (length c) lpd todo T loop
    = Ok (sweep c d todo T, loop || changed c d todo T).
Proof.
  intros Hlpd. rewrite linking_pages_dict_map in Hlpd. injection Hlpd as <-.
  induction todo as [|p rest IH]; intros Hin T loop HT.
  - cbn. now rewrite orb_false_r.
  - assert (Hp : In p (keys c)) by (apply Hin; now left).
    cbn [round_loop sweep changed].
    rewrite (getitem_map_keys (fun p => filter (is_linking c p) (keys c)))
      by exact Hp.
    cbn [bind]. fold (backlinks c p).
    rewrite estimate_page_rank_pure;
      [|apply backlinks_incl | rewrite HT; apply backlinks_incl].
    cbn [bind]. rewrite getitem_val by (now rewrite HT). cbn [bind].
    rewrite IH.
    + f_equal. f_equal. unfold within_threshold.
      rewrite negb_involutive.
      destruct (Qltb threshold (val T p - estimate c d T (backlinks c p))
                || Qltb threshold (estimate c d T (backlinks c p) - val T p));
        cbn; [now rewrite orb_true_r | reflexivity].
    + intros x Hx. apply Hin. now right.
    + rewrite keys_setitem; [exact HT | now rewrite HT].
Qed.

Lemma sweep_untouched (todo : list page) :
  forall T q, ~ In q todo -> val (sweep c d todo T) q = val T q.
Proof.
  induction todo as [|p rest IH]; intros T q Hq; [reflexivity|].
  cbn [sweep]. rewrite IH by (intros H; apply Hq; now right).
  rewrite val_setitem. destruct (String.eqb_spec q p) as [->|_]; [|reflexivity].
  exfalso. apply Hq. now left.
Qed.

Lemma sweep_written (p : page) (rest : list page) (T : dict Q) :
  ~ In p rest ->
  val (sweep c d (p :: rest) T) p = estimate c d T (backlinks c p).
Proof.
  intros Hp. cbn [sweep]. rewrite sweep_untouched by exact Hp.
  rewrite val_setitem. now rewrite String.eqb_refl.
Qed.

(** A raised flag comes from a page that moved by more than the
    threshold. *)
Lemma changed_true (todo : list page) :
  forall T,
    NoDup todo -> changed c d todo T = true ->
    exists p, In p todo
              /\ threshold < Qabs (val (sweep c d todo T) p - val T p).
Proof.
  induction todo as [|p rest IH]; intros T Hnd H; [discriminate|].
  inversion Hnd as [|? ? Hnotin Hnd']; subst.
  cbn [changed] in H. apply orb_true_iff in H. destruct H as [H|H].
  - exists p. split; [now left|].
    rewrite sweep_written by exact Hnotin.
    apply negb_true_iff in H.
    destruct (Qlt_le_dec threshold
                (Qabs (estimate c d T (backlinks c p) - val T p))) as [Hlt|Hle];
      [exact Hlt|].
    exfalso. assert (Hw : within_threshold (val T p) (estimate c d T (backlinks c p)) = true).
    { apply within_threshold_iff.
      rewrite Qabs_Qminus. exact Hle. }
    congruence.
  - destruct (IH _ Hnd' H) as (q & Hq & Hlt).
    exists q. split; [now right|].
    cbn [sweep]. rewrite val_setitem in Hlt.
    destruct (String.eqb_spec q p) as [->|_]; [contradiction | exact Hlt].
Qed.

End Pure.

(** ** Sums of rationals *)

Lemma fold_left_Qsum {A : Type} (f : A -> Q) (l : list A) :
  forall acc, fold_left (fun acc x => acc + f x) l acc == acc + Qsum (map f l).
Proof.
  induction l as [|x r IH]; intros acc; simpl; [ring|].
  rewrite IH. ring.
Qed.

Lemma Qsum_map_ext {A : Type} (f g : A -> Q) (l : list A) :
  (forall x, In x l -> f x == g x) -> Qsum (map f l) == Qsum (map g l).
Proof.
  induction l as [|x r IH]; intros H; simpl; [reflexivity|].
  assert (Hx : f x == g x) by (apply (H x); now left).
  assert (Hr : Qsum (map f r) == Qsum (map g r)).
  { apply IH. intros y Hy. apply (H y). now right. }
  lra.
Qed.

Lemma Qsum_map_le {A : Type} (f g : A -> Q) (l : list A) :
  (forall x, In x l -> f x <= g x) -> Qsum (map f l) <= Qsum (map g l).
Proof.
  induction l as [|x r IH]; intros H; simpl; [lra|].
  assert (Hx : f x <= g x) by (apply (H x); now left).
  assert (Hr : Qsum (map f r) <= Qsum (map g r)).
  { apply IH. intros y Hy. apply (H y). now right. }
  lra.
Qed.

Lemma Qsum_map_nonneg {A : Type} (f : A -> Q) (l : list A) :
  (forall x, In x l -> 0 <= f x) -> 0 <= Qsum (map f l).
Proof.
  induction l as [|x r IH]; intros H; simpl; [lra|].
  assert (Hx : 0 <= f x) by (apply (H x); now left).
  assert (Hr : 0 <= Qsum (map f r)).
  { apply IH. intros y Hy. apply (H y). now right. }
  lra.
Qed.

Lemma Qsum_map_plus {A : Type} (f g : A -> Q) (l : list A) :
  Qsum (map (fun x => f x + g x) l) == Qsum (map f l) + Qsum (map g l).
Proof.
  induction l as [|x r IH]; simpl; [ring | rewrite IH; ring].
Qed.

Lemma Qsum_map_scale {A : Type} (k : Q) (f : A -> Q) (l : list A) :
  Qsum (map (fun x => k * f x) l) == k * Qsum (map f l).
Proof.
  induction l as [|x r IH]; simpl; [ring | rewrite IH; ring].
Qed.

Lemma Qabs_Qsum {A : Type} (f : A -> Q) (l : list A) :
  Qabs (Qsum (map f l)) <= Qsum (map (fun x => Qabs (f x)) l).
Proof.
  induction l as [|x r IH]; cbn [map Qsum].
  - change (Qabs 0) with 0. lra.
  - eapply Qle_trans; [apply Qabs_triangle|]. lra.
Qed.

Lemma Qsum_map_In {A : Type} (f : A -> Q) (l : list A) (x : A) :
  (forall y, In y l -> 0 <= f y) -> In x l -> f x <= Qsum (map f l).
Proof.
  induction l as [|y r IH]; intros Hpos Hin; [contradiction|].
  simpl. assert (Hy : 0 <= f y) by (apply (Hpos y); now left).
  assert (Hr : 0 <= Qsum (map f r)).
  { apply Qsum_map_nonneg. intros z Hz. apply (Hpos z). now right. }
  destruct Hin as [->|Hin]; [lra|].
  assert (Hx : f x <= Qsum (map f r)).
  { apply IH; [|exact Hin]. intros z Hz. apply (Hpos z). now right. }
  lra.
Qed.

Lemma Qsum_map_perm {A : Type} (f : A -> Q) (l l' : list A) :
  Permutation l l' -> Qsum (map f l) == Qsum (map f l').
Proof.
  induction 1; simpl.
  - reflexivity.
  - rewrite IHPermutation. reflexivity.
  - ring.
  - rewrite IHPermutation1. exact IHPermutation2.
Qed.

Lemma Qsum_map_filter {A : Type} (f : A -> Q) (g : A -> bool) (l : list A) :
  Qsum (map f (filter g l)) == Qsum (map (fun x => if g x then f x else 0) l).
Proof.
  induction l as [|x r IH]; simpl; [reflexivity|].
  destruct (g x); simpl; rewrite IH; ring.
Qed.

Lemma Qsum_indicator {A : Type} (g : A -> bool) (v : Q) (l : list A) :
  Qsum (map (fun x => if g x then v else 0) l) == Qnat (length (filter g l)) * v.
Proof.
  induction l as [|x r IH]; simpl.
  - unfold Qnat. simpl. ring.
  - destruct (g x); cbn [length]; rewrite IH; [rewrite Qnat_S|]; ring.
Qed.

Lemma filter_mem_length (K links : list page) :
  NoDup K -> NoDup links -> incl links K ->
  length (filter (fun p => mem p links) K) = length links.
Proof.
  intros HK Hl Hincl. apply Permutation_length.
  apply NoDup_Permutation.
  - now apply NoDup_filter.
  - exact Hl.
  - intros x. rewrite filter_In, mem_In. split; [tauto|].
    intros H. split; [now apply Hincl | exact H].
Qed.

Lemma filter_all {A : Type} (g : A -> bool) (l : list A) :
  (forall x, In x l -> g x = true) -> filter g l = l.
Proof.
  induction l as [|x r IH]; intros H; simpl; [reflexivity|].
  rewrite (H x) by (simpl; auto). f_equal. apply IH. simpl in H. auto.
Qed.

Lemma Qmult_le_mono_l (k x y : Q) : 0 <= k -> x <= y -> k * x <= k * y.
Proof. intros Hk Hxy. nra. Qed.

(** Every rational is below some natural number. *)
Lemma Qnat_above (x : Q) : exists n : nat, x < Qnat n.
Proof.
  exists (Z.to_nat (Z.max 0 (Qfloor x + 1))).
  eapply Qlt_le_trans; [apply Qlt_floor|].
  unfold Qnat. rewrite <- Zle_Qle. lia.
Qed.

(** ** Termination of the convergence loop *)

Lemma gap_nonneg (T T' : dict Q) (q : page) : 0 <= gap T T' q.
Proof. apply Qabs_nonneg. Qed.

Lemma weight_nonneg (c : corpus) (p q : page) : 0 <= weight c p q.
Proof.
  unfold weight. destruct (is_linking c p q); [|lra].
  unfold Qdiv. rewrite Qmult_1_l. apply Qinv_le_0_compat. apply Qnat_nonneg.
Qed.

Lemma inflow_nonneg (c : corpus) (q : page) (L : list page) : 0 <= inflow c q L.
Proof.
  apply Qsum_map_nonneg. intros p _. apply weight_nonneg.
Qed.

Section Contraction.
Variables (c : corpus) (d : Q).
Hypothesis Hwf : link_graph c = true.
Hypothesis Hne : length c <> O.
Hypothesis Hd : Qabs d < 1.

Let K := keys c.
Let a := Qabs d.

Lemma a_range : 0 <= a /\ a < 1.
Proof. split; [apply Qabs_nonneg | exact Hd]. Qed.

(** The estimate is an affine function of the table. *)
Lemma estimate_sum (T : dict Q) (p : page) :
  estimate c d T (backlinks c p)
  == (1 - d) / Qnat (length c)
     + d * Qsum (map (fun q => weight c p q * val T q) K).
Proof.
  unfold estimate, backlinks. rewrite fold_left_Qsum, Qsum_map_filter.
  rewrite (Qsum_map_ext _ (fun q => weight c p q * val T q)).
  - fold K. ring.
  - intros q _. unfold weight. destruct (is_linking c p q).
    + unfold Qdiv. ring.
    + ring.
Qed.

(** Two tables give estimates no further apart than [|d|] times the
    weighted distance of the tables. *)
Lemma estimate_gap (T T' : dict Q) (p : page) :
  Qabs (estimate c d T' (backlinks c p) - estimate c d T (backlinks c p))
  <= a * Qsum (map (fun q => weight c p q * gap T T' q) K).
Proof.
  rewrite !estimate_sum.
  assert (E : (1 - d) / Qnat (length c)
              + d * Qsum (map (fun q => weight c p q * val T' q) K)
              - ((1 - d) / Qnat (length c)
                 + d * Qsum (map (fun q => weight c p q * val T q) K))
              == d * Qsum (map (fun q => weight c p q * (val T' q - val T q)) K)).
  { rewrite (Qsum_map_ext (fun q => weight c p q * (val T' q - val T q))
               (fun q => weight c p q * val T' q + (-(1)) * (weight c p q * val T q))).
    - rewrite Qsum_map_plus, Qsum_map_scale. ring.
    - intros q _. ring. }
  rewrite E, Qabs_Qmult. fold a.
  apply Qmult_le_mono_l; [apply a_range|].
  eapply Qle_trans; [apply Qabs_Qsum|].
  apply Qsum_map_le. intros q _. unfold gap.
  rewrite Qabs_Qmult, (Qabs_pos (weight c p q)) by apply weight_nonneg.
  lra.
Qed.

Lemma links_of_spec (q : page) :
  In q K -> NoDup (links_of c q) /\ incl (links_of c q) K.
Proof.
  intros Hq. destruct (getitem_In_keys c q Hq) as [links Hl].
  unfold links_of. rewrite Hl. now apply link_graph_links with (p := q).
Qed.

Lemma outdegree_nonzero (q : page) : outdegree c q <> O.
Proof.
  unfold outdegree.
  destruct (Nat.eqb_spec (length (links_of c q)) 0); assumption.
Qed.

(** Each linking page is counted by as many pages as its divisor. *)
Lemma linked_count (q : page) :
  In q K ->
  length (filter (fun p => is_linking c p q) K) = outdegree c q.
Proof.
  intros Hq. destruct (links_of_spec q Hq) as [Hnd Hincl].
  destruct (getitem_In_keys c q Hq) as [links Hl].
  unfold outdegree, is_linking. unfold links_of in *. rewrite Hl in *.
  destruct (Nat.eqb_spec (length links) 0) as [E|E].
  - rewrite filter_all; [apply keys_length|].
    intros p _. apply orb_true_r.
  - rewrite <- (filter_mem_length K links (link_graph_keys c Hwf) Hnd Hincl).
    f_equal. apply filter_ext. intros p. apply orb_false_r.
Qed.

(** The whole rank of a page is handed out: the shares add up to 1. *)
Lemma inflow_total (q : page) (L : list page) :
  In q K -> Permutation L K -> inflow c q L == 1.
Proof.
  intros Hq HL. unfold inflow. rewrite (Qsum_map_perm _ _ _ HL).
  unfold weight. rewrite Qsum_indicator, (linked_count q Hq).
  pose proof (Qnat_pos _ (outdegree_nonzero q)).
  field. lra.
Qed.

Lemma potential_shift (w delta : page -> Q) (l : list page) :
  forall pre1 pre2,
    (forall q, inflow c q pre1 == inflow c q pre2 + delta q) ->
    potential c a w pre1 l
    == potential c a w pre2 l + a * Qsum (map (fun q => w q * delta q) l).
Proof.
  induction l as [|q r IH]; intros pre1 pre2 H.
  - cbn. ring.
  - cbn [potential map Qsum].
    assert (Hq : inflow c q (q :: pre1) == inflow c q (q :: pre2) + delta q).
    { unfold inflow in *. cbn [map Qsum]. rewrite (H q). ring. }
    rewrite Hq, (IH (q :: pre1) (q :: pre2)).
    + ring.
    + intros q'. unfold inflow in *. cbn [map Qsum]. rewrite (H q'). ring.
Qed.

Lemma potential_app (w : page -> Q) (l1 l2 : list page) :
  forall pre,
    potential c a w pre (l1 ++ l2)
    == potential c a w pre l1 + potential c a w (rev l1 ++ pre) l2.
Proof.
  induction l1 as [|q r IH]; intros pre.
  - cbn. ring.
  - cbn [app potential rev]. rewrite IH, <- app_assoc. cbn [app]. ring.
Qed.

Lemma potential_ext (w1 w : page -> Q) (l : list page) :
  forall pre,
    (forall q, In q l -> w1 q == w q) ->
    potential c a w1 pre l == potential c a w pre l.
Proof.
  induction l as [|q r IH]; intros pre H; [reflexivity|].
  cbn [potential]. rewrite (H q) by now left.
  rewrite IH; [reflexivity|]. intros q' Hq'. apply H. now right.
Qed.

Lemma potential_nonneg (w : page -> Q) (l : list page) :
  (forall q, 0 <= w q) -> forall pre, 0 <= potential c a w pre l.
Proof.
  intros Hw. induction l as [|q r IH]; intros pre; cbn [potential]; [lra|].
  pose proof a_range as [Ha0 Ha1]. pose proof (IH (q :: pre)) as Hr.
  assert (Ht : 0 <= w q * (1 - a + a * inflow c q (q :: pre))).
  { apply Qmult_le_0_compat; [apply Hw|].
    pose proof (Qmult_le_0_compat _ _ Ha0 (inflow_nonneg c q (q :: pre))). lra. }
  lra.
Qed.

(** One page of the round: [p] heads the pages to come and joins the
    end of the queue with its new distance [w1 p]. *)
Lemma potential_step (w w1 : page -> Q) (p : page) (tl : list page) :
  In p K -> Permutation (p :: tl) K ->
  (forall q, In q tl -> w1 q == w q) ->
  w1 p <= a * Qsum (map (fun q => w q * weight c p q) (p :: tl)) ->
  potential c a w1 [] (tl ++ [p]) + (1 - a) * w p
  <= potential c a w [] (p :: tl).
Proof.
  intros Hp Hperm Hsame Hnew.
  rewrite potential_app, (potential_ext w1 w tl [] Hsame).
  cbn [potential].
  rewrite (potential_shift w (fun q => weight c p q) tl [p] []).
  2:{ intros q. unfold inflow. cbn [map Qsum]. ring. }
  assert (Hin : inflow c p (p :: rev tl ++ []) == 1).
  { apply inflow_total; [exact Hp|]. rewrite app_nil_r.
    rewrite <- Hperm. constructor. symmetry. apply Permutation_rev. }
  rewrite Hin. cbn [map Qsum] in Hnew.
  assert (Hself : inflow c p [p] == weight c p p).
  { unfold inflow. cbn [map Qsum]. ring. }
  rewrite Hself.
  set (S := Qsum (map (fun q => w q * weight c p q) tl)) in *.
  set (P := potential c a w [] tl).
  assert (E1 : w1 p * (1 - a + a * 1) + 0 == w1 p) by ring.
  assert (E2 : w p * (1 - a + a * weight c p p) + (P + a * S)
               == (1 - a) * w p + P + a * (w p * weight c p p + S)) by ring.
  rewrite E1, E2. lra.
Qed.

(** Two tables swept side by side over the pages [rest]: the potential
    falls by [1 - a] times the distance at every page swept. *)
Lemma potential_sweep (rest : list page) :
  forall (pre : list page) (T T' : dict Q),
    NoDup (rest ++ pre) -> Permutation (rest ++ pre) K ->
    potential c a (gap (sweep c d rest T) (sweep c d rest T')) [] (pre ++ rest)
    + (1 - a) * Qsum (map (gap T T') rest)
    <= potential c a (gap T T') [] (rest ++ pre).
Proof.
  induction rest as [|p rest IH]; intros pre T T' Hnd Hperm.
  - cbn [sweep app map Qsum]. rewrite app_nil_r. lra.
  - cbn [sweep map Qsum].
    set (T1 := setitem T p (estimate c d T (backlinks c p))).
    set (T1' := setitem T' p (estimate c d T' (backlinks c p))).
    cbn [app] in Hnd, Hperm.
    inversion Hnd as [|? ? Hnotin Hnd']; subst.
    assert (Hp : In p K).
    { eapply Permutation_in; [exact Hperm | now left]. }
    assert (Hrot : Permutation (rest ++ pre ++ [p]) (p :: rest ++ pre)).
    { rewrite app_assoc. symmetry. apply Permutation_cons_append. }
    assert (Hnd1 : NoDup (rest ++ pre ++ [p])).
    { eapply Permutation_NoDup; [symmetry; exact Hrot | exact Hnd]. }
    assert (Hperm1 : Permutation (rest ++ pre ++ [p]) K).
    { now rewrite Hrot. }
    pose proof (IH (pre ++ [p]) T1 T1' Hnd1 Hperm1) as Hrec.
    rewrite <- app_assoc in Hrec. cbn [app] in Hrec.
    assert (Hsame : forall q, In q (rest ++ pre) -> gap T1 T1' q == gap T T' q).
    { intros q Hq. unfold gap, T1, T1'. rewrite !val_setitem.
      destruct (String.eqb_spec q p) as [->|_]; [contradiction | reflexivity]. }
    assert (Hnew : gap T1 T1' p
                   <= a * Qsum (map (fun q => gap T T' q * weight c p q)
                                  (p :: rest ++ pre))).
    { unfold gap at 1, T1, T1'. rewrite !val_setitem, String.eqb_refl.
      eapply Qle_trans; [apply estimate_gap|].
      apply Qmult_le_mono_l; [apply a_range|].
      rewrite (Qsum_map_perm _ _ _ Hperm).
      apply Qle_lteq. right. apply Qsum_map_ext. intros q _. ring. }
    pose proof (potential_step (gap T T') (gap T1 T1') p (rest ++ pre)
                  Hp Hperm Hsame Hnew) as Hstep.
    rewrite <- app_assoc in Hstep.
    assert (Hrest : Qsum (map (gap T1 T1') rest) == Qsum (map (gap T T') rest)).
    { apply Qsum_map_ext. intros q Hq. apply Hsame. apply in_or_app. now left. }
    rewrite Hrest in Hrec.
    assert (E : (1 - a) * (gap T T' p + Qsum (map (gap T T') rest))
                == (1 - a) * gap T T' p + (1 - a) * Qsum (map (gap T T') rest))
      by ring.
    rewrite E. cbn [app]. lra.
Qed.

Lemma round_potential_nonneg (T : dict Q) : 0 <= round_potential c d T.
Proof. apply potential_nonneg. intros q. apply gap_nonneg. Qed.

(** A round lowers the potential by [1 - a] times the total change it
    made. *)
Lemma round_potential_falls (T : dict Q) :
  round_potential c d (sweep c d K T)
  + (1 - a) * Qsum (map (gap T (sweep c d K T)) K)
  <= round_potential c d T.
Proof.
  unfold round_potential.
  pose proof (potential_sweep K [] T (sweep c d K T)) as H.
  rewrite app_nil_r in H. cbn [app] in H. apply H.
  - apply (link_graph_keys c Hwf).
  - apply Permutation_refl.
Qed.

(** The loop stops before the potential is used up: every round that
    raises the flag costs more than [(1 - a) * threshold]. *)
Lemma while_loop_stops (lpd : dict (list page)) :
  linking_pages_dict c = Ok lpd ->
  forall (n : nat) (T : dict Q),
    keys T = K ->
    round_potential c d T < Qnat n * ((1 - a) * threshold) ->
    exists t, while_loop n c d (length c) lpd T = Some (Ok t) /\ keys t = K.
Proof.
  intros Hlpd. pose proof a_range as [Ha0 Ha1].
  induction n as [|n IH]; intros T HT Hpot.
  - pose proof (round_potential_nonneg T).
    assert (E : Qnat 0 * ((1 - a) * threshold) == 0) by (unfold Qnat; cbn; ring).
    rewrite E in Hpot. lra.
  - cbn [while_loop]. unfold round.
    rewrite (round_loop_pure c d Hne lpd (keys c) Hlpd (incl_refl _) T false HT).
    cbn [orb]. fold K.
    assert (Hkeys : keys (sweep c d K T) = K).
    { rewrite keys_sweep; [exact HT|]. rewrite HT. apply incl_refl. }
    destruct (changed c d K T) eqn:Hch.
    + apply IH; [exact Hkeys|].
      destruct (changed_true c d K T (link_graph_keys c Hwf) Hch) as (p & Hp & Hlt).
      fold (gap T (sweep c d K T) p) in Hlt.
      assert (Hsum : gap T (sweep c d K T) p
                     <= Qsum (map (gap T (sweep c d K T)) K)).
      { apply Qsum_map_In; [|exact Hp]. intros q _. apply gap_nonneg. }
      assert (Hcost : (1 - a) * threshold
                      <= (1 - a) * Qsum (map (gap T (sweep c d K T)) K)).
      { apply Qmult_le_mono_l; lra. }
      pose proof (round_potential_falls T) as Hfall.
      rewrite Qnat_S in Hpot.
      set (eps := (1 - a) * threshold) in *.
      assert (E : (Qnat n + 1) * eps == Qnat n * eps + eps) by ring.
      rewrite E in Hpot. lra.
    + exists (sweep c d K T). split; [reflexivity | exact Hkeys].
Qed.

(** Fuel enough for the potential of the first table. *)
Lemma enough_fuel (T : dict Q) :
  exists n : nat, round_potential c d T < Qnat n * ((1 - a) * threshold).
Proof.
  pose proof a_range as [Ha0 Ha1].
  assert (Heps : 0 < (1 - a) * threshold).
  { apply Qmult_lt_0_compat; [lra | reflexivity]. }
  set (eps := (1 - a) * threshold) in *.
  destruct (Qnat_above (round_potential c d T / eps)) as [n Hn].
  exists n.
  assert (E : round_potential c d T / eps * eps == round_potential c d T)
    by (field; lra).
  rewrite <- E. apply Qmult_lt_r; [exact Heps | exact Hn].
Qed.

End Contraction.

Lemma while_loop_more_fuel (c : corpus) (d : Q) (N : nat) (lpd : dict (list page))
  (n : nat) :
  forall (T : dict Q) (r : result (dict Q)) (m : nat),
    while_loop n c d N lpd T = Some r -> (n <= m)%nat ->
    while_loop m c d N lpd T = Some r.
Proof.
  induction n as [|n IH]; intros T r m H Hle; [discriminate|].
  destruct m as [|m]; [lia|].
  cbn [while_loop] in *.
  destruct (round c d N lpd T) as [[T' loop]|e]; [|exact H].
  destruct loop; [|exact H]. apply IH; [exact H | lia].
Qed.

(** A run of [iterate_pagerank] on a non-empty link graph with a damping
    of absolute value below 1. *)
Lemma iterate_pagerank_run (c : corpus) (d : Q) :
  link_graph c = true -> c <> [] -> Qabs d < 1 ->
  exists fuel t,
    keys t = keys c
    /\ forall fuel', (fuel <= fuel')%nat ->
                     iterate_pagerank fuel' c d = Some (Ok t).
Proof.
  intros Hwf Hne Hd.
  assert (HN : length c <> O) by (destruct c; simpl; congruence).
  set (T0 := fromkeys (keys c) (1 / Qnat (length c))).
  destruct (enough_fuel c d Hd T0) as [n Hn].
  destruct (while_loop_stops c d Hwf HN Hd _ (linking_pages_dict_map c) n T0)
    as (t & Hrun & Hk).
  { apply keys_fromkeys. }
  { exact Hn. }
  exists n, t. split; [exact Hk|].
  intros fuel' Hle. unfold iterate_pagerank.
  rewrite linking_pages_dict_map, (fdiv_Qnat _ _ HN).
  now apply (while_loop_more_fuel c d (length c) _ n).
Qed.

(** With exact arithmetic the convergence loop ends: on a non-empty link
    graph, for every damping of absolute value below 1, some amount of
    fuel is enough, and the result is the same with any larger amount. *)
Theorem iterate_pagerank_terminates (c : corpus) (d : Q) :
  link_graph c = true -> c <> [] -> -1 < d -> d < 1 ->
  exists fuel t,
    forall fuel', (fuel <= fuel')%nat ->
                  iterate_pagerank fuel' c d = Some (Ok t).
Proof.
  intros Hwf Hne Hlo Hhi.
  destruct (iterate_pagerank_run c d Hwf Hne) as (fuel & t & _ & Hrun).
  { apply Qabs_Qlt_condition. split; assumption. }
  exists fuel, t. exact Hrun.
Qed.

Lemma iterate_pagerank_terminates_witness :
  exists fuel t,
    forall fuel', (fuel <= fuel')%nat ->
                  iterate_pagerank fuel' chain DAMPING = Some (Ok t).
Proof.
  apply (iterate_pagerank_terminates chain DAMPING).
  - reflexivity.
  - discriminate.
  - reflexivity.
  - reflexivity.
Defined.


(** ** The keys of the results *)

Lemma while_loop_keys (c : corpus) (d : Q) (N : nat) (lpd : dict (list page)) :
  NoDup (keys c) ->
  forall (fuel : nat) (T t : dict Q),
    while_loop fuel c d N lpd T = Some (Ok t) -> keys t = keys T.
Proof.
  intros Hnd. induction fuel as [|fuel IH]; intros T t H; [discriminate|].
  cbn [while_loop] in H.
  destruct (round c d N lpd T) as [[T' loop]|e] eqn:E; [|discriminate].
  destruct (round_loop_spec c d N lpd (keys c) T false T' loop Hnd E) as (Hk & _).
  destruct loop.
  - rewrite (IH _ _ H). exact Hk.
  - injection H as <-. exact Hk.
Qed.

Lemma iterate_pagerank_keys (c : corpus) (d : Q) (fuel : nat) (t : dict Q) :
  NoDup (keys c) -> iterate_pagerank fuel c d = Some (Ok t) -> keys t = keys c.
Proof.
  intros Hnd H. unfold iterate_pagerank in H.
  destruct (linking_pages_dict c) as [lpd|e]; [|discriminate].
  destruct (fdiv 1 (Qnat (length c))) as [initial|e]; [|discriminate].
  rewrite (while_loop_keys c d _ lpd Hnd fuel _ t H). apply keys_fromkeys.
Qed.

(** C10: on a non-empty link graph, the table returned by
    [sample_pagerank] and the table returned by [iterate_pagerank] have
    exactly the keys of the graph (in the order of the graph);
    [sample_pagerank] always returns, [iterate_pagerank] returns at least
    for every damping of absolute value below 1. *)
Theorem rank_table_keys (c : corpus) (d : Q) (n : Z) (rnd : nat -> nat) :
  link_graph c = true -> c <> [] -> (1 <= n)%Z ->
  (exists t, sample_pagerank c d n rnd = Ok t
             /\ keys t = keys c
             /\ forall p, In p (keys t) <-> In p (keys c))
  /\ (forall fuel t,
        iterate_pagerank fuel c d = Some (Ok t) ->
        keys t = keys c /\ forall p, In p (keys t) <-> In p (keys c))
  /\ (-1 < d -> d < 1 ->
      exists fuel t, iterate_pagerank fuel c d = Some (Ok t)
                     /\ keys t = keys c).
Proof.
  intros Hwf Hne Hn. split; [|split].
  - destruct (sample_pagerank_spec c d n rnd Hwf Hne Hn) as (samples & _ & Hk & _ & Hrun).
    exists (rank_of_counts n samples). split; [exact Hrun|].
    rewrite keys_rank_of_counts, Hk. split; [reflexivity | tauto].
  - intros fuel t H.
    rewrite (iterate_pagerank_keys c d fuel t (link_graph_keys c Hwf) H).
    split; [reflexivity | tauto].
  - intros Hlo Hhi.
    destruct (iterate_pagerank_run c d Hwf Hne) as (fuel & t & Hk & Hrun).
    { apply Qabs_Qlt_condition. split; assumption. }
    exists fuel, t. split; [apply Hrun; lia | exact Hk].
Qed.

Lemma rank_table_keys_witness :
  (exists t, sample_pagerank chain DAMPING SAMPLES (fun k => k) = Ok t
             /\ keys t = keys chain
             /\ forall p, In p (keys t) <-> In p (keys chain))
  /\ (forall fuel t,
        iterate_pagerank fuel chain DAMPING = Some (Ok t) ->
        keys t = keys chain /\ forall p, In p (keys t) <-> In p (keys chain))
  /\ (-1 < DAMPING -> DAMPING < 1 ->
      exists fuel t, iterate_pagerank fuel chain DAMPING = Some (Ok t)
                     /\ keys t = keys chain).
Proof.
  apply (rank_table_keys chain DAMPING SAMPLES (fun k => k)).
  - reflexivity.
  - discriminate.
  - unfold SAMPLES. lia.
Defined.

(** * Further properties of the code *)

(** ** [transition_model]: errors and range *)

Lemma add_link_chance_total (links : list page) (link_chance : Q) :
  forall dist : dict Q,
    (incl links (keys dist) ->
     exists dist', add_link_chance dist links link_chance = Ok dist'
                   /\ keys dist' = keys dist)
    /\ (~ incl links (keys dist) ->
        add_link_chance dist links link_chance = Raise KeyError).
Proof.
  induction links as [|lp rest IH]; intros dist.
  - split.
    + intros _. now exists dist.
    + intros H. exfalso. apply H. intros x [].
  - cbn [add_link_chance].
    destruct (in_dec string_dec lp (keys dist)) as [Hin|Hout].
    + destruct (getitem_In_keys dist lp Hin) as [v Hv]. rewrite Hv. cbn [bind].
      destruct (IH (setitem dist lp (v + link_chance))) as [Hok Hko].
      rewrite (keys_setitem dist lp _ Hin) in Hok, Hko. split.
      * intros Hincl. apply Hok. intros x Hx. apply Hincl. now right.
      * intros Hincl. apply Hko. intros Hrest. apply Hincl.
        intros x [<-|Hx]; [exact Hin | now apply Hrest].
    + rewrite (getitem_not_In dist lp Hout). cbn [bind]. split.
      * intros Hincl. exfalso. apply Hout. apply Hincl. now left.
      * reflexivity.
Qed.

(** X1: [transition_model] fails only with [KeyError], and exactly when the
    page is not a key of the corpus or one of its links is not; it never
    divides by zero. *)
Theorem transition_model_errors (c : corpus) (p : page) (d : Q) :
  (forall links,
      getitem c p = Ok links -> incl links (keys c) ->
      exists dist, transition_model c p d = Ok dist /\ keys dist = keys c)
  /\ (forall links,
        getitem c p = Ok links -> ~ incl links (keys c) ->
        transition_model c p d = Raise KeyError)
  /\ (~ In p (keys c) -> transition_model c p d = Raise KeyError).
Proof.
  split; [|split].
  - intros links Hp Hincl. unfold transition_model. rewrite Hp. cbn [bind].
    assert (HN : length c <> O) by (eapply getitem_nonempty; eassumption).
    destruct (Nat.eqb_spec (length links) 0) as [E|E].
    + rewrite fdiv_Qnat by exact HN. cbn [bind].
      eexists. split; [reflexivity | apply keys_fromkeys].
    + rewrite !fdiv_Qnat by assumption. cbn [bind].
      destruct (add_link_chance_total links (d / Qnat (length links))
                  (fromkeys (keys c) ((1 - d) / Qnat (length c)))) as [Hok _].
      rewrite keys_fromkeys in Hok. exact (Hok Hincl).
  - intros links Hp Hincl. unfold transition_model. rewrite Hp. cbn [bind].
    assert (HN : length c <> O) by (eapply getitem_nonempty; eassumption).
    destruct (Nat.eqb_spec (length links) 0) as [E|E].
    + exfalso. apply Hincl. destruct links; [intros x [] | discriminate].
    + rewrite !fdiv_Qnat by assumption. cbn [bind].
      destruct (add_link_chance_total links (d / Qnat (length links))
                  (fromkeys (keys c) ((1 - d) / Qnat (length c)))) as [_ Hko].
      rewrite keys_fromkeys in Hko. exact (Hko Hincl).
  - intros Hp. unfold transition_model.
    now rewrite (getitem_not_In c p Hp).
Qed.

Lemma transition_model_errors_witness :
  (forall links,
      getitem [("A", ["B"])]%string "A"%string = Ok links ->
      incl links (keys [("A"%string, ["B"%string])]) ->
      exists dist, transition_model [("A", ["B"])]%string "A"%string DAMPING = Ok dist
                   /\ keys dist = keys [("A"%string, ["B"%string])])
  /\ (forall links,
        getitem [("A", ["B"])]%string "A"%string = Ok links ->
        ~ incl links (keys [("A"%string, ["B"%string])]) ->
        transition_model [("A", ["B"])]%string "A"%string DAMPING = Raise KeyError)
  /\ (~ In "A"%string (keys [("A"%string, ["B"%string])]) ->
      transition_model [("A", ["B"])]%string "A"%string DAMPING = Raise KeyError).
Proof.
  apply (transition_model_errors [("A", ["B"])]%string "A"%string DAMPING).
Defined.

Lemma Qdiv_Qnat_range (x : Q) (n : nat) :
  0 <= x -> n <> O -> 0 <= x / Qnat n /\ x / Qnat n <= x.
Proof.
  intros Hx Hn. pose proof (Qnat_pos n Hn) as Hpos.
  assert (H1 : 1 <= Qnat n).
  { unfold Qnat. change 1 with (inject_Z 1). rewrite <- Zle_Qle. lia. }
  split.
  - apply Qle_shift_div_l; [exact Hpos | lra].
  - apply Qle_shift_div_r; [exact Hpos|].
    assert (0 <= x * (Qnat n - 1)) by (apply Qmult_le_0_compat; lra).
    lra.
Qed.

(** X2: on a link graph and for a damping between 0 and 1, every weight of
    the distribution [transition_model] returns lies between 0 and 1. *)
Theorem transition_model_range (c : corpus) (p : page) (d : Q)
  (dist : dict Q) (q : page) (v : Q) :
  link_graph c = true -> 0 <= d -> d <= 1 ->
  transition_model c p d = Ok dist -> getitem dist q = Ok v ->
  0 <= v /\ v <= 1.
Proof.
  intros Hwf Hd0 Hd1 Hrun Hq.
  assert (Hp : exists links, getitem c p = Ok links).
  { destruct (getitem c p) as [links|e] eqn:E; [now exists links|].
    unfold transition_model in Hrun. rewrite E in Hrun. discriminate. }
  destruct Hp as [links Hp].
  assert (HN : length c <> O) by (eapply getitem_nonempty; eassumption).
  destruct links as [|l ls].
  - rewrite (transition_model_no_links c p d Hp) in Hrun. injection Hrun as <-.
    assert (Hk : In q (keys c)).
    { apply getitem_Ok_keys in Hq. now rewrite keys_fromkeys in Hq. }
    rewrite (getitem_fromkeys _ _ _ Hk) in Hq. injection Hq as <-.
    apply Qdiv_Qnat_range; [lra | exact HN].
  - destruct (transition_model_links c p d (l :: ls) Hwf Hp) as (dist' & Hrun' & Hk & Hget & _);
      [discriminate|].
    rewrite Hrun in Hrun'. injection Hrun' as <-.
    assert (Hqk : In q (keys c)).
    { apply getitem_Ok_keys in Hq. now rewrite Hk in Hq. }
    rewrite (Hget q Hqk) in Hq.
    destruct (Qdiv_Qnat_range (1 - d) (length c)) as [Ha0 Ha1]; [lra | exact HN |].
    destruct (Qdiv_Qnat_range d (length (l :: ls))) as [Hb0 Hb1];
      [exact Hd0 | discriminate |].
    set (A := (1 - d) / Qnat (length c)) in *.
    set (B := d / Qnat (length (l :: ls))) in *.
    destruct (mem q (l :: ls)); injection Hq as Hv; rewrite <- Hv; split; lra.
Qed.

Lemma transition_model_range_witness :
  0 <= (1 - DAMPING) / Qnat (length chain) + DAMPING / Qnat (length ["B"%string])
  /\ (1 - DAMPING) / Qnat (length chain) + DAMPING / Qnat (length ["B"%string]) <= 1.
Proof.
  apply (transition_model_range chain "A"%string DAMPING
           (setitem (fromkeys (keys chain) ((1 - DAMPING) / Qnat (length chain)))
              "B"%string
              ((1 - DAMPING) / Qnat (length chain) + DAMPING / Qnat (length ["B"%string])))
           "B"%string).
  - reflexivity.
  - unfold DAMPING. lra.
  - unfold DAMPING. lra.
  - reflexivity.
  - reflexivity.
Defined.

(** ** [sample_pagerank]: the sample count and the range of the ranks *)

Lemma getitem_rank_of_counts (n : Z) (samples : dict Z) (p : page) :
  getitem (rank_of_counts n samples) p
  = match getitem samples p with
    | Ok cnt => Ok (inject_Z cnt / inject_Z n)
    | Raise e => Raise e
    end.
Proof.
  induction samples as [|[k cnt] r IH]; [reflexivity|].
  cbn [rank_of_counts map getitem fst snd].
  destruct (String.eqb p k); [reflexivity | exact IH].
Qed.

(** With [n <= 1] the loop [for s in range(n - 1)] makes no draw: the
    counts are those of the start page alone. *)
Lemma sample_counts_no_draw (c : corpus) (d : Q) (n : Z) (rnd : nat -> nat) :
  link_graph c = true -> c <> [] -> (n <= 1)%Z ->
  exists start,
    In start (keys c)
    /\ random_choice (keys c) (rnd O) = Ok start
    /\ sample_counts c d n rnd = Ok (setitem (fromkeys (keys c) 0%Z) start 1%Z).
Proof.
  intros Hwf Hne Hn. unfold sample_counts.
  destruct (random_choice_In (keys c) (rnd O) (keys_nonempty c Hne)) as (p & Hrun & Hp).
  exists p. split; [exact Hp|]. split; [exact Hrun|].
  rewrite Hrun. cbn [bind].
  destruct (transition_model_dist c p d Hwf Hp) as (dist & Htm & _).
  rewrite Htm. cbn [bind]. unfold incr.
  rewrite (getitem_fromkeys (keys c) p 0%Z Hp). cbn [bind].
  replace (Z.to_nat (n - 1)) with O by lia. reflexivity.
Qed.

(** X3: [sample_pagerank] does not check [n]: on a non-empty link graph,
    [n = 0] makes no draw after the start page and then raises
    [ZeroDivisionError] at the first [samples[s] / n]. *)
Theorem sample_pagerank_zero (c : corpus) (d : Q) (rnd : nat -> nat) :
  link_graph c = true -> c <> [] ->
  sample_pagerank c d 0 rnd = Raise ZeroDivisionError.
Proof.
  intros Hwf Hne.
  destruct (sample_counts_no_draw c d 0 rnd Hwf Hne) as (start & Hs & _ & Hrun);
    [lia|].
  unfold sample_pagerank. rewrite Hrun. cbn [bind].
  rewrite (keys_setitem _ start 1%Z) by (now rewrite keys_fromkeys).
  rewrite keys_fromkeys.
  destruct c as [|[k links] r]; [congruence|].
  cbn [keys map fst normalise].
  assert (Hk : In k (keys (setitem (fromkeys (k :: map fst r) 0%Z) start 1%Z))).
  { rewrite keys_setitem by (now rewrite keys_fromkeys).
    rewrite keys_fromkeys. now left. }
  destruct (getitem_In_keys _ k Hk) as [cnt Hcnt].
  rewrite Hcnt. reflexivity.
Qed.

Lemma sample_pagerank_zero_witness :
  sample_pagerank chain DAMPING 0 (fun k => k) = Raise ZeroDivisionError.
Proof.
  apply (sample_pagerank_zero chain DAMPING (fun k => k)).
  - reflexivity.
  - discriminate.
Defined.

(** X4: for [n <= 1], [n <> 0], negative [n] included, [sample_pagerank]
    raises nothing and counts the start page only: its rank is [1/n],
    every other rank is [0/n]. *)
Theorem sample_pagerank_start_only (c : corpus) (d : Q) (n : Z) (rnd : nat -> nat) :
  link_graph c = true -> c <> [] -> (n <= 1)%Z -> n <> 0%Z ->
  exists start t,
    random_choice (keys c) (rnd O) = Ok start
    /\ sample_pagerank c d n rnd = Ok t
    /\ getitem t start = Ok (1 / inject_Z n)
    /\ (forall q, In q (keys c) -> q <> start ->
          getitem t q = Ok (0 / inject_Z n)).
Proof.
  intros Hwf Hne Hn Hn0.
  destruct (sample_counts_no_draw c d n rnd Hwf Hne Hn) as (start & Hs & Hch & Hrun).
  exists start, (rank_of_counts n (setitem (fromkeys (keys c) 0%Z) start 1%Z)).
  split; [exact Hch|]. split.
  - unfold sample_pagerank. rewrite Hrun. cbn [bind].
    apply (normalise_spec _ n Hn0) with (done := []); try reflexivity.
    rewrite keys_setitem by (now rewrite keys_fromkeys).
    rewrite keys_fromkeys. now apply link_graph_keys.
  - split.
    + rewrite getitem_rank_of_counts, getitem_setitem_same. reflexivity.
    + intros q Hq Hne'. rewrite getitem_rank_of_counts.
      rewrite getitem_setitem_other by exact Hne'.
      now rewrite (getitem_fromkeys (keys c) q 0%Z Hq).
Qed.

Lemma sample_pagerank_start_only_witness :
  exists start t,
    random_choice (keys chain) O = Ok start
    /\ sample_pagerank chain DAMPING (-2) (fun k => k) = Ok t
    /\ getitem t start = Ok (1 / inject_Z (-2))
    /\ (forall q, In q (keys chain) -> q <> start ->
          getitem t q = Ok (0 / inject_Z (-2))).
Proof.
  apply (sample_pagerank_start_only chain DAMPING (-2) (fun k => k)).
  - reflexivity.
  - discriminate.
  - lia.
  - lia.
Defined.

Lemma Forall_values_setitem {V : Type} (P : V -> Prop) (d : dict V)
  (k : page) (w : V) :
  Forall P (values d) -> P w -> Forall P (values (setitem d k w)).
Proof.
  intros Hd Hw. induction d as [|[k' v'] r IH]; cbn.
  - now constructor.
  - inversion Hd; subst. destruct (String.eqb k k'); cbn.
    + now constructor.
    + constructor; [assumption | now apply IH].
Qed.

Lemma sample_loop_nonneg (c : corpus) (d : Q) (rnd : nat -> nat) (k : nat) :
  forall (s : nat) (dist : dict Q) (samples samples' : dict Z),
    sample_loop c d rnd k s dist samples = Ok samples' ->
    Forall (Z.le 0) (values samples) -> Forall (Z.le 0) (values samples').
Proof.
  induction k as [|k IH]; intros s dist samples samples' H Hpos.
  - cbn in H. now injection H as <-.
  - cbn [sample_loop] in H. bind_inv H. bind_inv H. bind_inv H.
    apply (IH _ _ _ _ H). unfold incr in Ha1. bind_inv Ha1.
    injection Ha1 as <-. apply Forall_values_setitem; [exact Hpos|].
    apply getitem_values in Ha2.
    rewrite Forall_forall in Hpos. specialize (Hpos _ Ha2). lia.
Qed.

Lemma Zsum_bound (l : list Z) (x : Z) :
  Forall (Z.le 0) l -> In x l -> (0 <= x <= Zsum l)%Z.
Proof.
  induction l as [|y r IH]; intros Hpos Hin; [contradiction|].
  inversion Hpos as [|? ? Hy Hr]; subst. cbn.
  assert (0 <= Zsum r)%Z.
  { clear -Hr. induction r as [|z r IH]; cbn; [lia|].
    inversion Hr; subst. specialize (IH H2). unfold Zsum in IH. lia. }
  unfold Zsum in *. destruct Hin as [->|Hin]; [lia|].
  specialize (IH Hr Hin). lia.
Qed.

(** X5: on a non-empty link graph and for [n >= 1], every rank
    [sample_pagerank] returns lies between 0 and 1, whatever the random
    source draws. *)
Theorem sample_pagerank_range (c : corpus) (d : Q) (n : Z) (rnd : nat -> nat)
  (t : dict Q) (p : page) (v : Q) :
  link_graph c = true -> c <> [] -> (1 <= n)%Z ->
  sample_pagerank c d n rnd = Ok t -> getitem t p = Ok v ->
  0 <= v /\ v <= 1.
Proof.
  intros Hwf Hne Hn Hrun Hp.
  destruct (sample_pagerank_spec c d n rnd Hwf Hne Hn) as (samples & Hcnt & Hk & Hz & Hpr).
  rewrite Hrun in Hpr. injection Hpr as ->.
  rewrite getitem_rank_of_counts in Hp.
  destruct (getitem samples p) as [cnt|e] eqn:Hc; [|discriminate].
  injection Hp as <-.
  assert (Hpos : Forall (Z.le 0) (values samples)).
  { unfold sample_counts in Hcnt. bind_inv Hcnt. bind_inv Hcnt. bind_inv Hcnt.
    apply (sample_loop_nonneg _ _ _ _ _ _ _ _ Hcnt).
    unfold incr in Ha1. bind_inv Ha1. injection Ha1 as <-.
    apply Forall_values_setitem; [|apply getitem_values in Ha2].
    - rewrite values_fromkeys. apply Forall_forall. intros x Hx.
      apply repeat_spec in Hx. lia.
    - rewrite values_fromkeys in Ha2. apply repeat_spec in Ha2. lia. }
  destruct (Zsum_bound _ cnt Hpos (getitem_values _ _ _ Hc)) as [H0 H1].
  rewrite Hz in H1.
  assert (Hn' : 0 < inject_Z n)
    by (change 0 with (inject_Z 0); rewrite <- Zlt_Qlt; lia).
  assert (Hc0 : 0 <= inject_Z cnt)
    by (change 0 with (inject_Z 0); rewrite <- Zle_Qle; exact H0).
  assert (Hc1 : inject_Z cnt <= inject_Z n) by (rewrite <- Zle_Qle; exact H1).
  split.
  - apply Qle_shift_div_l; [exact Hn' | lra].
  - apply Qle_shift_div_r; [exact Hn' | lra].
Qed.

Lemma sample_pagerank_range_witness :
  0 <= inject_Z 1 / inject_Z 1 /\ inject_Z 1 / inject_Z 1 <= 1.
Proof.
  apply (sample_pagerank_range chain DAMPING 1 (fun k => k)
           [("A"%string, inject_Z 1 / inject_Z 1);
            ("B"%string, inject_Z 0 / inject_Z 1);
            ("C"%string, inject_Z 0 / inject_Z 1)] "A"%string).
  - reflexivity.
  - discriminate.
  - lia.
  - reflexivity.
  - reflexivity.
Defined.

(** ** [iterate_pagerank]: what every run keeps *)

Lemma iterate_pagerank_unfold (c : corpus) (d : Q) (fuel : nat) :
  c <> [] ->
  iterate_pagerank fuel c d
  = while_loop fuel c d (length c)
      (map (fun p => (p, backlinks c p)) (keys c))
      (fromkeys (keys c) (1 / Qnat (length c))).
Proof.
  intros Hne. assert (HN : length c <> O) by (destruct c; simpl; congruence).
  unfold iterate_pagerank. rewrite linking_pages_dict_map, (fdiv_Qnat _ _ HN).
  reflexivity.
Qed.

(** A table the loop returns was written by a round that left the flag
    down, and every table of the run keeps what the rounds keep. *)
Lemma while_loop_invariant (c : corpus) (d : Q) (lpd : dict (list page))
  (P : dict Q -> Prop) :
  length c <> O -> linking_pages_dict c = Ok lpd ->
  (forall T, keys T = keys c -> P T -> P (sweep c d (keys c) T)) ->
  forall (fuel : nat) (T : dict Q) (r : result (dict Q)),
    keys T = keys c -> P T ->
    while_loop fuel c d (length c) lpd T = Some r ->
    exists last,
      keys last = keys c /\ P last
      /\ changed c d (keys c) last = false
      /\ r = Ok (sweep c d (keys c) last).
Proof.
  intros HN Hlpd Hkeep. induction fuel as [|fuel IH]; intros T r HT HP H;
    [discriminate|].
  cbn [while_loop] in H. unfold round in H.
  rewrite (round_loop_pure c d HN lpd (keys c) Hlpd (incl_refl _) T false HT) in H.
  cbn [orb] in H. destruct (changed c d (keys c) T) eqn:Hch.
  - apply (IH (sweep c d (keys c) T) r); [|now apply Hkeep | exact H].
    rewrite keys_sweep; [exact HT|]. rewrite HT. apply incl_refl.
  - injection H as <-. now exists T.
Qed.

(** X6: on a non-empty corpus, closed or not, [iterate_pagerank] never
    raises: with any fuel it is still running or has returned a table. *)
Theorem iterate_pagerank_never_raises (c : corpus) (d : Q) (fuel : nat) :
  c <> [] ->
  iterate_pagerank fuel c d = None
  \/ exists t, iterate_pagerank fuel c d = Some (Ok t) /\ keys t = keys c.
Proof.
  intros Hne. assert (HN : length c <> O) by (destruct c; simpl; congruence).
  rewrite (iterate_pagerank_unfold c d fuel Hne).
  destruct (while_loop fuel c d (length c) _ _) as [r|] eqn:E; [right | now left].
  destruct (while_loop_invariant c d _ (fun _ => True) HN
              (linking_pages_dict_map c) (fun _ _ _ => I) fuel _ r
              (keys_fromkeys _ _) I E) as (last & Hk & _ & _ & ->).
  eexists. split; [reflexivity|].
  rewrite keys_sweep; [exact Hk|]. rewrite Hk. apply incl_refl.
Qed.

Lemma iterate_pagerank_never_raises_witness :
  iterate_pagerank 1 [("A", ["Z"])]%string DAMPING = None
  \/ exists t, iterate_pagerank 1 [("A", ["Z"])]%string DAMPING = Some (Ok t)
                /\ keys t = keys [("A"%string, ["Z"%string])].
Proof.
  apply (iterate_pagerank_never_raises [("A", ["Z"])]%string DAMPING 1).
  discriminate.
Defined.

Lemma val_fromkeys_nonneg (ks : list page) (u : Q) (q : page) :
  0 <= u -> 0 <= val (fromkeys ks u) q.
Proof.
  intros Hu. unfold val.
  destruct (in_dec string_dec q ks) as [Hin|Hout].
  - now rewrite getitem_fromkeys.
  - rewrite getitem_not_In by (now rewrite keys_fromkeys). lra.
Qed.

Lemma estimate_lower (c : corpus) (d : Q) (T : dict Q) (bl : list page) :
  0 <= d -> (forall q, 0 <= val T q) ->
  (1 - d) / Qnat (length c) <= estimate c d T bl.
Proof.
  intros Hd HT. unfold estimate. rewrite fold_left_Qsum.
  assert (Hs : 0 <= Qsum (map (fun q => val T q / Qnat (outdegree c q)) bl)).
  { apply Qsum_map_nonneg. intros q _. unfold Qdiv.
    apply Qmult_le_0_compat; [apply HT|].
    apply Qinv_le_0_compat. apply Qnat_nonneg. }
  assert (0 <= d * (0 + Qsum (map (fun q => val T q / Qnat (outdegree c q)) bl))).
  { apply Qmult_le_0_compat; lra. }
  lra.
Qed.

Lemma sweep_lower (c : corpus) (d : Q) (todo : list page) :
  0 <= d -> d <= 1 -> length c <> O ->
  forall T,
    (forall q, 0 <= val T q) ->
    (forall q, 0 <= val (sweep c d todo T) q)
    /\ (forall p, In p todo ->
          (1 - d) / Qnat (length c) <= val (sweep c d todo T) p).
Proof.
  intros Hd0 Hd1 HN. induction todo as [|p rest IH]; intros T HT.
  - split; [exact HT | intros p []].
  - cbn [sweep].
    set (T1 := setitem T p (estimate c d T (backlinks c p))).
    pose proof (estimate_lower c d T (backlinks c p) Hd0 HT) as Hest.
    destruct (Qdiv_Qnat_range (1 - d) (length c)) as [Hb _]; [lra | exact HN |].
    assert (HT1 : forall q, 0 <= val T1 q).
    { intros q. unfold T1. rewrite val_setitem.
      destruct (String.eqb q p); [lra | apply HT]. }
    destruct (IH T1 HT1) as [Hall Hrest]. split; [exact Hall|].
    intros q [<-|Hq]; [|now apply Hrest].
    destruct (in_dec string_dec p rest) as [Hin|Hout]; [now apply Hrest|].
    rewrite sweep_untouched by exact Hout. unfold T1.
    rewrite val_setitem, String.eqb_refl. exact Hest.
Qed.

(** X7: for a damping between 0 and 1, every rank [iterate_pagerank]
    returns is at least [(1 - d) / total_pages]; no rank is negative. *)
Theorem iterate_pagerank_lower_bound (c : corpus) (d : Q) (fuel : nat)
  (t : dict Q) (p : page) (v : Q) :
  c <> [] -> 0 <= d -> d <= 1 ->
  iterate_pagerank fuel c d = Some (Ok t) -> getitem t p = Ok v ->
  (1 - d) / Qnat (length c) <= v /\ 0 <= v.
Proof.
  intros Hne Hd0 Hd1 Hrun Hp.
  assert (HN : length c <> O) by (destruct c; simpl; congruence).
  rewrite (iterate_pagerank_unfold c d fuel Hne) in Hrun.
  assert (HP0 : forall q, 0 <= val (fromkeys (keys c) (1 / Qnat (length c))) q).
  { intros q. apply val_fromkeys_nonneg.
    apply (Qdiv_Qnat_range 1 (length c)); [lra | exact HN]. }
  destruct (while_loop_invariant c d _ (fun T => forall q, 0 <= val T q) HN
              (linking_pages_dict_map c)
              (fun T _ HT => proj1 (sweep_lower c d (keys c) Hd0 Hd1 HN T HT))
              fuel _ _ (keys_fromkeys _ _) HP0 Hrun)
    as (last & Hk & Hpos & _ & Ht).
  injection Ht as ->.
  destruct (sweep_lower c d (keys c) Hd0 Hd1 HN last Hpos) as [_ Hlow].
  assert (Hin : In p (keys c)).
  { apply getitem_Ok_keys in Hp. rewrite keys_sweep in Hp; [now rewrite <- Hk|].
    rewrite Hk. apply incl_refl. }
  specialize (Hlow p Hin). rewrite (val_Ok _ _ _ Hp) in Hlow.
  destruct (Qdiv_Qnat_range (1 - d) (length c)) as [Hb _]; [lra | exact HN |].
  split; lra.
Qed.

Lemma iterate_pagerank_lower_bound_witness :
  (1 - DAMPING) / Qnat (length two) <= 20000 # 40000 /\ 0 <= 20000 # 40000.
Proof.
  apply (iterate_pagerank_lower_bound two DAMPING 1
           [("A"%string, 20000 # 40000); ("B"%string, 400000000 # 800000000)]
           "A"%string).
  - discriminate.
  - unfold DAMPING. lra.
  - unfold DAMPING. lra.
  - vm_compute. reflexivity.
  - reflexivity.
Defined.

(** ** [iterate_pagerank]: how close the result is to a fixed point *)

Lemma sweep_app (c : corpus) (d : Q) (l1 l2 : list page) :
  forall T, sweep c d (l1 ++ l2) T = sweep c d l2 (sweep c d l1 T).
Proof.
  induction l1 as [|p r IH]; intros T; [reflexivity|].
  cbn [app sweep]. apply IH.
Qed.

Lemma changed_false (c : corpus) (d : Q) (todo : list page) :
  forall T,
    NoDup todo -> changed c d todo T = false ->
    forall p, In p todo -> gap T (sweep c d todo T) p <= threshold.
Proof.
  induction todo as [|p rest IH]; intros T Hnd H q Hq; [contradiction|].
  inversion Hnd as [|? ? Hnotin Hnd']; subst.
  cbn [changed] in H. apply orb_false_iff in H. destruct H as [Hp Hrest].
  apply negb_false_iff, within_threshold_iff in Hp.
  destruct Hq as [<-|Hq].
  - unfold gap. rewrite sweep_written by exact Hnotin.
    rewrite Qabs_Qminus. exact Hp.
  - specialize (IH _ Hnd' Hrest q Hq). cbn [sweep].
    unfold gap in *. rewrite val_setitem in IH.
    assert (Hqp : String.eqb q p = false).
    { apply String.eqb_neq. intros ->. contradiction. }
    rewrite Hqp in IH. exact IH.
Qed.

Lemma estimate_lipschitz (c : corpus) (d : Q) (T T' : dict Q) (p : page) :
  Qabs (estimate c d T' (backlinks c p) - estimate c d T (backlinks c p))
  <= Qabs d * Qsum (map (fun q => weight c p q * gap T T' q) (keys c)).
Proof.
  rewrite !estimate_sum.
  assert (E : (1 - d) / Qnat (length c)
              + d * Qsum (map (fun q => weight c p q * val T' q) (keys c))
              - ((1 - d) / Qnat (length c)
                 + d * Qsum (map (fun q => weight c p q * val T q) (keys c)))
              == d * Qsum (map (fun q => weight c p q * (val T' q - val T q)) (keys c))).
  { rewrite (Qsum_map_ext (fun q => weight c p q * (val T' q - val T q))
               (fun q => weight c p q * val T' q + (-(1)) * (weight c p q * val T q))).
    - rewrite Qsum_map_plus, Qsum_map_scale. ring.
    - intros q _. ring. }
  rewrite E, Qabs_Qmult.
  apply Qmult_le_mono_l; [apply Qabs_nonneg|].
  eapply Qle_trans; [apply Qabs_Qsum|].
  apply Qsum_map_le. intros q _. unfold gap.
  rewrite Qabs_Qmult, (Qabs_pos (weight c p q)) by apply weight_nonneg.
  lra.
Qed.

(** Plugging the table a round wrote back into the update rule moves a
    page by no more than [|d|] times the weighted change of that round. *)
Lemma sweep_residual (c : corpus) (d : Q) (last : dict Q) (p : page) :
  NoDup (keys c) -> In p (keys c) ->
  Qabs (val (sweep c d (keys c) last) p
        - estimate c d (sweep c d (keys c) last) (backlinks c p))
  <= Qabs d
     * Qsum (map (fun q => weight c p q * gap last (sweep c d (keys c) last) q)
               (keys c)).
Proof.
  intros Hnd Hp. destruct (in_split _ _ Hp) as (pre & post & Hsplit).
  set (t := sweep c d (keys c) last).
  set (mid := sweep c d pre last).
  assert (Ht : t = sweep c d (p :: post) mid).
  { unfold t, mid. rewrite Hsplit. apply sweep_app. }
  rewrite Hsplit in Hnd.
  pose proof (NoDup_app_remove_l _ _ Hnd) as Hpost.
  inversion Hpost as [|? ? Hnotin _]; subst.
  assert (Hval : val t p = estimate c d mid (backlinks c p)).
  { rewrite Ht. now apply sweep_written. }
  rewrite Hval, Qabs_Qminus.
  eapply Qle_trans; [apply estimate_lipschitz|].
  apply Qmult_le_mono_l; [apply Qabs_nonneg|].
  apply Qsum_map_le. intros q _.
  apply Qmult_le_mono_l; [apply weight_nonneg|].
  destruct (in_dec string_dec q pre) as [Hin|Hout].
  - assert (Hq : val t q = val mid q).
    { rewrite Ht. apply sweep_untouched. intros Hq.
      exact (NoDup_app_disjoint pre (p :: post) q Hnd Hin Hq). }
    unfold gap at 1. rewrite Hq.
    assert (E : val mid q - val mid q == 0) by ring.
    rewrite E. apply gap_nonneg.
  - unfold gap, mid. rewrite (sweep_untouched c d pre last q Hout). lra.
Qed.

Lemma weight_le_linking (c : corpus) (p q : page) :
  length c <> O -> weight c p q <= (if is_linking c p q then 1 else 0).
Proof.
  intros HN. unfold weight. destruct (is_linking c p q); [|lra].
  apply (Qdiv_Qnat_range 1 (outdegree c q)); [lra|].
  now apply outdegree_nonzero.
Qed.

(** X8: the table [iterate_pagerank] returns is nearly a fixed point of
    the update rule: [estimate_page_rank] applied to the returned table
    moves the rank of a page by at most [|d| * 0.001] per backlink of that
    page. *)
Theorem iterate_pagerank_residual (c : corpus) (d : Q) (fuel : nat)
  (t : dict Q) (lpd : dict (list page)) (p : page) (bl : list page) (v : Q) :
  c <> [] -> NoDup (keys c) ->
  iterate_pagerank fuel c d = Some (Ok t) ->
  linking_pages_dict c = Ok lpd -> getitem lpd p = Ok bl ->
  getitem t p = Ok v ->
  exists e,
    estimate_page_rank c d (length c) t bl = Ok e
    /\ Qabs (v - e) <= Qabs d * threshold * Qnat (length bl).
Proof.
  intros Hne Hnd Hrun Hlpd Hbl Hv.
  assert (HN : length c <> O) by (destruct c; simpl; congruence).
  rewrite (iterate_pagerank_unfold c d fuel Hne) in Hrun.
  destruct (while_loop_invariant c d _ (fun _ => True) HN
              (linking_pages_dict_map c) (fun _ _ _ => I) fuel _ _
              (keys_fromkeys _ _) I Hrun) as (last & Hk & _ & Hch & Ht).
  injection Ht as ->.
  assert (Hkt : keys (sweep c d (keys c) last) = keys c).
  { rewrite keys_sweep; [exact Hk|]. rewrite Hk. apply incl_refl. }
  assert (Hp : In p (keys c)).
  { apply getitem_Ok_keys in Hv. now rewrite Hkt in Hv. }
  rewrite linking_pages_dict_map in Hlpd. injection Hlpd as <-.
  rewrite (getitem_map_keys (fun p => filter (is_linking c p) (keys c)) _ _ Hp) in Hbl.
  injection Hbl as <-. fold (backlinks c p).
  exists (estimate c d (sweep c d (keys c) last) (backlinks c p)). split.
  - apply estimate_page_rank_pure; [exact HN | apply backlinks_incl|].
    rewrite Hkt. apply backlinks_incl.
  - rewrite <- (val_Ok _ _ _ Hv).
    eapply Qle_trans; [apply (sweep_residual c d last p Hnd Hp)|].
    rewrite <- Qmult_assoc. apply Qmult_le_mono_l; [apply Qabs_nonneg|].
    eapply Qle_trans.
    + apply (Qsum_map_le _ (fun q => if is_linking c p q then threshold else 0)).
      intros q Hq.
      pose proof (weight_le_linking c p q HN) as Hw.
      pose proof (weight_nonneg c p q) as Hw0.
      pose proof (changed_false c d (keys c) last Hnd Hch q Hq) as Hg.
      pose proof (gap_nonneg last (sweep c d (keys c) last) q) as Hg0.
      destruct (is_linking c p q).
      * assert (weight c p q * gap last (sweep c d (keys c) last) q
                <= 1 * threshold).
        { apply Qmult_le_compat_nonneg; split; assumption. }
        lra.
      * assert (Hz : weight c p q == 0) by lra. rewrite Hz. lra.
    + rewrite Qsum_indicator. unfold backlinks. lra.
Qed.

Lemma iterate_pagerank_residual_witness :
  exists e,
    estimate_page_rank two DAMPING (length two)
      [("A"%string, 20000 # 40000); ("B"%string, 400000000 # 800000000)]
      ["B"%string] = Ok e
    /\ Qabs ((20000 # 40000) - e)
       <= Qabs DAMPING * threshold * Qnat (length ["B"%string]).
Proof.
  apply (iterate_pagerank_residual two DAMPING 1
           [("A"%string, 20000 # 40000); ("B"%string, 400000000 # 800000000)]
           [("A", ["B"]); ("B", ["A"])]%string "A"%string).
  - discriminate.
  - apply nodupb_NoDup. reflexivity.
  - vm_compute. reflexivity.
  - reflexivity.
  - reflexivity.
  - reflexivity.
Defined.

Lemma Qsum_const {A : Type} (k : Q) (l : list A) :
  Qsum (map (fun _ => k) l) == Qnat (length l) * k.
Proof.
  induction l as [|x r IH]; cbn [map Qsum length].
  - unfold Qnat. cbn. ring.
  - rewrite IH, Qnat_S. ring.
Qed.

Lemma Qsum_swap {A B : Type} (f : A -> B -> Q) (l1 : list A) (l2 : list B) :
  Qsum (map (fun x => Qsum (map (f x) l2)) l1)
  == Qsum (map (fun y => Qsum (map (fun x => f x y) l1)) l2).
Proof.
  induction l1 as [|x r IH]; cbn [map Qsum].
  - rewrite (Qsum_const 0 l2). ring.
  - rewrite IH, <- Qsum_map_plus. reflexivity.
Qed.

Lemma Qsum_values (T : dict Q) :
  NoDup (keys T) -> Qsum (values T) == Qsum (map (val T) (keys T)).
Proof.
  induction T as [|[k v] r IH]; intros Hnd; [reflexivity|].
  cbn [keys values map fst snd Qsum] in *. inversion Hnd; subst.
  fold (keys r) in *. fold (values r).
  assert (Hk : val ((k, v) :: r) k = v).
  { unfold val. cbn [getitem]. now rewrite String.eqb_refl. }
  assert (Hr : Qsum (map (val ((k, v) :: r)) (keys r))
               == Qsum (map (val r) (keys r))).
  { apply Qsum_map_ext. intros q Hq. unfold val. cbn [getitem].
    destruct (String.eqb_spec q k) as [->|_]; [contradiction | reflexivity]. }
  rewrite Hk, Hr, (IH H2). reflexivity.
Qed.

(** The estimates of all pages add up to [(1 - d) + d * total]: the update
    rule hands out the whole rank of every page. *)
Lemma estimate_total (c : corpus) (d : Q) (T : dict Q) :
  link_graph c = true -> length c <> O ->
  Qsum (map (fun p => estimate c d T (backlinks c p)) (keys c))
  == (1 - d) + d * Qsum (map (val T) (keys c)).
Proof.
  intros Hwf HN.
  rewrite (Qsum_map_ext _
             (fun p => (1 - d) / Qnat (length c)
                       + d * Qsum (map (fun q => weight c p q * val T q) (keys c))))
    by (intros p _; apply estimate_sum).
  rewrite Qsum_map_plus, Qsum_const, Qsum_map_scale, Qsum_swap, keys_length.
  rewrite (Qsum_map_ext _ (val T)).
  - pose proof (Qnat_pos _ HN). field. lra.
  - intros q Hq.
    rewrite (Qsum_map_ext _ (fun p => val T q * weight c p q))
      by (intros p _; ring).
    rewrite Qsum_map_scale. fold (inflow c q (keys c)).
    rewrite (inflow_total c Hwf HN q (keys c) Hq (Permutation_refl _)). ring.
Qed.

(** X9: on a non-empty link graph the ranks [iterate_pagerank] returns
    add up to 1 up to an error [e] with
    [|1 - d| * e <= |d| * total_pages * 0.001], in exact arithmetic. *)
Theorem iterate_pagerank_sum (c : corpus) (d : Q) (fuel : nat) (t : dict Q) :
  link_graph c = true -> c <> [] ->
  iterate_pagerank fuel c d = Some (Ok t) ->
  Qabs (1 - d) * Qabs (Qsum (values t) - 1)
  <= Qabs d * (Qnat (length c) * threshold).
Proof.
  intros Hwf Hne Hrun.
  assert (HN : length c <> O) by (destruct c; simpl; congruence).
  pose proof (link_graph_keys c Hwf) as Hnd.
  rewrite (iterate_pagerank_unfold c d fuel Hne) in Hrun.
  destruct (while_loop_invariant c d _ (fun _ => True) HN
              (linking_pages_dict_map c) (fun _ _ _ => I) fuel _ _
              (keys_fromkeys _ _) I Hrun) as (last & Hk & _ & Hch & Ht).
  injection Ht as ->.
  set (t := sweep c d (keys c) last).
  assert (Hkt : keys t = keys c).
  { unfold t. rewrite keys_sweep; [exact Hk|]. rewrite Hk. apply incl_refl. }
  rewrite Qsum_values by (now rewrite Hkt). rewrite Hkt.
  set (S := Qsum (map (val t) (keys c))).
  assert (E : (1 - d) * (S - 1)
              == Qsum (map (fun p => val t p - estimate c d t (backlinks c p))
                         (keys c))).
  { rewrite (Qsum_map_ext _
               (fun p => val t p + (-(1)) * estimate c d t (backlinks c p)))
      by (intros p _; ring).
    rewrite Qsum_map_plus, Qsum_map_scale, (estimate_total c d t Hwf HN).
    fold S. ring. }
  rewrite <- Qabs_Qmult, E.
  eapply Qle_trans; [apply Qabs_Qsum|].
  eapply Qle_trans.
  { apply (Qsum_map_le _
             (fun p => Qabs d
                       * Qsum (map (fun q => weight c p q * gap last t q) (keys c)))).
    intros p Hp. apply (sweep_residual c d last p Hnd Hp). }
  rewrite Qsum_map_scale. apply Qmult_le_mono_l; [apply Qabs_nonneg|].
  rewrite Qsum_swap.
  eapply Qle_trans.
  { apply (Qsum_map_le _ (fun _ => threshold)). intros q Hq.
    rewrite (Qsum_map_ext _ (fun p => gap last t q * weight c p q))
      by (intros p _; ring).
    rewrite Qsum_map_scale. fold (inflow c q (keys c)).
    rewrite (inflow_total c Hwf HN q (keys c) Hq (Permutation_refl _)).
    pose proof (changed_false c d (keys c) last Hnd Hch q Hq). fold t in H. lra. }
  rewrite Qsum_const, keys_length. lra.
Qed.

Lemma iterate_pagerank_sum_witness :
  Qabs (1 - DAMPING)
  * Qabs (Qsum (values [("A"%string, 20000 # 40000);
                        ("B"%string, 400000000 # 800000000)]) - 1)
  <= Qabs DAMPING * (Qnat (length two) * threshold).
Proof.
  apply (iterate_pagerank_sum two DAMPING 1).
  - reflexivity.
  - discriminate.
  - vm_compute. reflexivity.
Defined.

(** ** [iterate_pagerank] with damping 0 *)

Lemma estimate_no_damping (c : corpus) (T : dict Q) (bl : list page) :
  estimate c 0 T bl == 1 / Qnat (length c).
Proof. unfold estimate, Qdiv. ring. Qed.

Lemma sweep_no_damping (c : corpus) (todo : list page) :
  forall T,
    (forall q, In q (keys T) -> val T q == 1 / Qnat (length c)) ->
    incl todo (keys T) ->
    changed c 0 todo T = false
    /\ (forall q, In q (keys T) ->
          val (sweep c 0 todo T) q == 1 / Qnat (length c)).
Proof.
  induction todo as [|p rest IH]; intros T HT Hin.
  - split; [reflexivity | exact HT].
  - cbn [changed sweep].
    assert (Hp : In p (keys T)) by (apply Hin; now left).
    set (T1 := setitem T p (estimate c 0 T (backlinks c p))).
    assert (Hk1 : keys T1 = keys T) by (now apply keys_setitem).
    assert (HT1 : forall q, In q (keys T1) -> val T1 q == 1 / Qnat (length c)).
    { intros q Hq. unfold T1. rewrite val_setitem.
      destruct (String.eqb q p); [apply estimate_no_damping|].
      apply HT. now rewrite <- Hk1. }
    destruct (IH T1 HT1) as [Hch Hval].
    { rewrite Hk1. intros x Hx. apply Hin. now right. }
    split.
    + rewrite Hch, orb_false_r. apply negb_false_iff, within_threshold_iff.
      rewrite (HT p Hp), estimate_no_damping.
      assert (E : 1 / Qnat (length c) - 1 / Qnat (length c) == 0) by ring.
      rewrite E. discriminate.
    + intros q Hq. apply Hval. now rewrite Hk1.
Qed.

(** X10: with damping 0 the links play no part: on a non-empty corpus
    [iterate_pagerank] returns after its first round, and every rank is
    [1 / total_pages]. *)
Theorem iterate_pagerank_no_damping (c : corpus) (fuel : nat) :
  c <> [] ->
  exists t,
    iterate_pagerank (S fuel) c 0 = Some (Ok t)
    /\ keys t = keys c
    /\ forall p v, getitem t p = Ok v -> v == 1 / Qnat (length c).
Proof.
  intros Hne. assert (HN : length c <> O) by (destruct c; simpl; congruence).
  rewrite (iterate_pagerank_unfold c 0 (S fuel) Hne).
  set (T0 := fromkeys (keys c) (1 / Qnat (length c))).
  assert (HT0 : forall q, In q (keys T0) -> val T0 q == 1 / Qnat (length c)).
  { intros q Hq. unfold T0 in *. rewrite keys_fromkeys in Hq.
    unfold val. rewrite (getitem_fromkeys _ _ _ Hq). reflexivity. }
  destruct (sweep_no_damping c (keys c) T0 HT0) as [Hch Hval].
  { unfold T0. rewrite keys_fromkeys. apply incl_refl. }
  exists (sweep c 0 (keys c) T0).
  assert (Hk : keys (sweep c 0 (keys c) T0) = keys c).
  { rewrite keys_sweep; unfold T0; rewrite keys_fromkeys;
      [reflexivity | apply incl_refl]. }
  split; [|split].
  - cbn [while_loop]. unfold round.
    change (fun p => (p, backlinks c p))
      with (fun p => (p, filter (is_linking c p) (keys c))).
    rewrite (round_loop_pure c 0 HN _ (keys c) (linking_pages_dict_map c)
               (incl_refl _) T0 false (keys_fromkeys _ _)).
    cbn [orb]. now rewrite Hch.
  - exact Hk.
  - intros p v Hv. rewrite <- (val_Ok _ _ _ Hv). apply Hval.
    apply getitem_Ok_keys in Hv. rewrite Hk in Hv.
    unfold T0. now rewrite keys_fromkeys.
Qed.

Lemma iterate_pagerank_no_damping_witness :
  exists t,
    iterate_pagerank 1 chain 0 = Some (Ok t)
    /\ keys t = keys chain
    /\ forall p v, getitem t p = Ok v -> v == 1 / Qnat (length chain).
Proof.
  apply (iterate_pagerank_no_damping chain O). discriminate.
Defined.

(** ** The update rule hands out every rank in full *)

(** X11: in the backlink index of a link graph, a page [q] is listed as a
    backlink of exactly as many pages as the divisor [estimate_page_rank]
    uses for it: [len(corpus[q])], or [total_pages] when [q] has no
    links. *)
Theorem backlink_count (c : corpus) (lpd : dict (list page)) (q : page)
  (links : list page) :
  link_graph c = true -> linking_pages_dict c = Ok lpd ->
  getitem c q = Ok links ->
  length (filter (fun e => mem q (snd e)) lpd)
  = if Nat.eqb (length links) 0 then length c else length links.
Proof.
  intros Hwf Hlpd Hq. rewrite linking_pages_dict_map in Hlpd.
  injection Hlpd as <-.
  pose proof (getitem_Ok_keys _ _ _ Hq) as Hk.
  pose proof (linked_count c Hwf q Hk) as Hcount.
  unfold outdegree, links_of in Hcount. rewrite Hq in Hcount.
  rewrite <- Hcount. clear Hcount.
  assert (H : forall l,
             length (filter (fun e => mem q (snd e))
                       (map (fun p => (p, filter (is_linking c p) (keys c))) l))
             = length (filter (fun p => is_linking c p q) l)).
  { induction l as [|p r IH]; [reflexivity|].
    cbn [map filter snd].
    assert (E : mem q (filter (is_linking c p) (keys c)) = is_linking c p q).
    { destruct (is_linking c p q) eqn:El.
      - apply mem_In. apply filter_In. now split.
      - apply mem_false. intros H. apply filter_In in H. destruct H. congruence. }
    rewrite E. destruct (is_linking c p q); cbn [length]; now rewrite IH. }
  apply H.
Qed.

Lemma backlink_count_witness :
  length (filter (fun e => mem "C"%string (snd e))
            [("A", ["C"]); ("B", ["A"; "C"]); ("C", ["B"; "C"])]%string)
  = if Nat.eqb (length ([] : list page)) 0 then length chain
    else length ([] : list page).
Proof.
  apply (backlink_count chain
           [("A", ["C"]); ("B", ["A"; "C"]); ("C", ["B"; "C"])]%string "C"%string []).
  - reflexivity.
  - reflexivity.
  - reflexivity.
Defined.

(** X12: on a non-empty link graph, the estimates that
    [estimate_page_rank] computes for all pages from one and the same
    table add up to [(1 - d) + d * total], where [total] is the sum of the
    table: computed from a snapshot, the estimates of a table of sum 1
    would again have sum 1. *)
Theorem estimate_page_rank_total (c : corpus) (d : Q) (lpd : dict (list page))
  (T : dict Q) :
  link_graph c = true -> c <> [] -> linking_pages_dict c = Ok lpd ->
  keys T = keys c ->
  exists estimates : list Q,
    Forall2 (fun p e => exists bl, getitem lpd p = Ok bl
                                   /\ estimate_page_rank c d (length c) T bl = Ok e)
      (keys c) estimates
    /\ Qsum estimates == (1 - d) + d * Qsum (values T).
Proof.
  intros Hwf Hne Hlpd HT.
  assert (HN : length c <> O) by (destruct c; simpl; congruence).
  rewrite linking_pages_dict_map in Hlpd. injection Hlpd as <-.
  exists (map (fun p => estimate c d T (backlinks c p)) (keys c)). split.
  - assert (H : forall l, incl l (keys c) ->
                  Forall2 (fun p e => exists bl,
                               getitem (map (fun p => (p, filter (is_linking c p) (keys c))) (keys c)) p = Ok bl
                               /\ estimate_page_rank c d (length c) T bl = Ok e)
                    l (map (fun p => estimate c d T (backlinks c p)) l)).
    { induction l as [|p r IH]; intros Hl; [constructor|].
      cbn [map]. constructor.
      - exists (backlinks c p). split.
        + apply (getitem_map_keys (fun p => filter (is_linking c p) (keys c))).
          apply Hl. now left.
        + apply estimate_page_rank_pure; [exact HN | apply backlinks_incl|].
          rewrite HT. apply backlinks_incl.
      - apply IH. intros x Hx. apply Hl. now right. }
    apply H. apply incl_refl.
  - rewrite (estimate_total c d T Hwf HN).
    rewrite Qsum_values by (rewrite HT; now apply link_graph_keys).
    rewrite HT. reflexivity.
Qed.

Lemma estimate_page_rank_total_witness :
  exists estimates : list Q,
    Forall2 (fun p e => exists bl,
                 getitem [("A", ["B"]); ("B", ["A"])]%string p = Ok bl
                 /\ estimate_page_rank two DAMPING (length two)
                      (fromkeys (keys two) (1 / Qnat 2)) bl = Ok e)
      (keys two) estimates
    /\ Qsum estimates
       == (1 - DAMPING) + DAMPING * Qsum (values (fromkeys (keys two) (1 / Qnat 2))).
Proof.
  apply (estimate_page_rank_total two DAMPING [("A", ["B"]); ("B", ["A"])]%string
           (fromkeys (keys two) (1 / Qnat 2))).
  - reflexivity.
  - discriminate.
  - reflexivity.
  - reflexivity.
Defined.

(** ** [crawl] *)

Lemma own_links_In (p q : page) (hrefs : list string) :
  In q (own_links p hrefs) <-> In q hrefs /\ q <> p.
Proof.
  unfold own_links. rewrite filter_In, nodup_In, negb_true_iff, String.eqb_neq.
  tauto.
Qed.

Lemma own_links_NoDup (p : page) (hrefs : list string) : NoDup (own_links p hrefs).
Proof. apply NoDup_filter. apply NoDup_nodup. Qed.

Lemma NoDup_keys_setitem {V : Type} (d : dict V) (k : page) (v : V) :
  NoDup (keys d) -> NoDup (keys (setitem d k v)).
Proof.
  intros Hnd. destruct (in_dec string_dec k (keys d)) as [Hin|Hout].
  - now rewrite keys_setitem.
  - rewrite keys_setitem_new by exact Hout.
    apply (Permutation_NoDup (Permutation_cons_append (keys d) k)).
    now constructor.
Qed.

Lemma In_setitem {V : Type} (d : dict V) (k p : page) (v w : V) :
  In (p, w) (setitem d k v) -> (p = k /\ w = v) \/ In (p, w) d.
Proof.
  induction d as [|[k' v'] r IH]; cbn.
  - intros [[= <- <-]|[]]. now left.
  - destruct (String.eqb_spec k k') as [->|Hne]; cbn.
    + intros [[= <- <-]|H]; [now left | right; now right].
    + intros [H|H]; [right; now left|].
      destruct (IH H) as [H'|H']; [now left | right; now right].
Qed.

Lemma In_keys_setitem {V : Type} (d : dict V) (k p : page) (v : V) :
  In p (keys (setitem d k v)) <-> p = k \/ In p (keys d).
Proof.
  destruct (in_dec string_dec k (keys d)) as [Hin|Hout].
  - rewrite keys_setitem by exact Hin. split; [tauto|].
    intros [->|H]; assumption.
  - rewrite keys_setitem_new by exact Hout. rewrite in_app_iff. cbn.
    split; intros H; intuition congruence.
Qed.

Lemma read_pages_invariant (listing0 : directory) (listing : directory) :
  forall pages,
    incl listing listing0 -> read_invariant listing0 pages ->
    read_invariant listing0 (read_pages listing pages).
Proof.
  induction listing as [|[filename hrefs] rest IH]; intros pages Hincl Hinv;
    [exact Hinv|].
  assert (Hrest : incl rest listing0) by (intros x Hx; apply Hincl; now right).
  cbn [read_pages]. destruct (endswith filename ".html") eqn:E; cbn [negb].
  - apply IH; [exact Hrest|]. destruct Hinv as [Hnd Hall]. split.
    + now apply NoDup_keys_setitem.
    + intros p ls Hin. apply In_setitem in Hin.
      destruct Hin as [[-> ->]|Hin]; [|now apply Hall].
      split; [exact E|]. exists hrefs. split; [|reflexivity].
      apply Hincl. now left.
  - now apply IH.
Qed.

Lemma read_pages_keys (listing : directory) :
  forall pages p,
    In p (keys (read_pages listing pages))
    <-> In p (keys pages)
        \/ (endswith p ".html" = true /\ exists hrefs, In (p, hrefs) listing).
Proof.
  induction listing as [|[filename hrefs] rest IH]; intros pages p.
  - cbn. split; [tauto|]. intros [H|[_ [? []]]]. exact H.
  - cbn [read_pages]. destruct (endswith filename ".html") eqn:E; cbn [negb].
    + rewrite IH, In_keys_setitem. split.
      * intros [[->|H]|[H1 [h H2]]].
        -- right. split; [exact E|]. exists hrefs. now left.
        -- now left.
        -- right. split; [exact H1|]. exists h. now right.
      * intros [H|[H1 [h [[= <- <-]|H2]]]].
        -- left. now right.
        -- left. now left.
        -- right. split; [exact H1|]. now exists h.
    + rewrite IH. split.
      * intros [H|[H1 [h H2]]]; [now left|].
        right. split; [exact H1|]. exists h. now right.
      * intros [H|[H1 [h [[= <- <-]|H2]]]]; [now left | congruence|].
        right. split; [exact H1|]. now exists h.
Qed.

Lemma getitem_app_new {V : Type} (d1 d2 : dict V) (k : page) :
  ~ In k (keys d1) -> getitem (d1 ++ d2) k = getitem d2 k.
Proof.
  induction d1 as [|[k' v'] r IH]; cbn; [reflexivity|].
  intros H. destruct (String.eqb_spec k k') as [->|_]; [tauto|].
  apply IH. tauto.
Qed.

Lemma setitem_app_new {V : Type} (d1 d2 : dict V) (k : page) (v w : V) :
  ~ In k (keys d1) ->
  setitem (d1 ++ (k, v) :: d2) k w = d1 ++ (k, w) :: d2.
Proof.
  induction d1 as [|[k' v'] r IH]; cbn.
  - now rewrite String.eqb_refl.
  - intros H. destruct (String.eqb_spec k k') as [->|_]; [tauto|].
    f_equal. apply IH. tauto.
Qed.

Lemma keys_map_kept (K : list page) (d : corpus) : keys (map (kept K) d) = keys d.
Proof. unfold keys. rewrite map_map. reflexivity. Qed.

Lemma keep_corpus_links_map (K : list page) (todo : corpus) :
  forall done : corpus,
    NoDup (keys (done ++ todo)) -> keys (done ++ todo) = K ->
    keep_corpus_links (keys todo) (map (kept K) done ++ todo)
    = Ok (map (kept K) (done ++ todo)).
Proof.
  induction todo as [|[k ls] rest IH]; intros done Hnd HK.
  - cbn. now rewrite !app_nil_r.
  - cbn [keys map fst keep_corpus_links].
    assert (Hk : ~ In k (keys (map (kept K) done))).
    { rewrite keys_map_kept. unfold keys in Hnd. rewrite map_app in Hnd.
      cbn [map fst] in Hnd. apply NoDup_remove_2 in Hnd.
      intros Hin. apply Hnd. apply in_or_app. now left. }
    rewrite (getitem_app_new _ _ k Hk). cbn [getitem].
    rewrite String.eqb_refl. cbn [bind].
    rewrite (setitem_app_new _ _ k ls _ Hk).
    assert (Hkeys : keys (map (kept K) done ++ (k, ls) :: rest) = K).
    { rewrite <- HK. unfold keys. rewrite !map_app, map_map. reflexivity. }
    rewrite Hkeys.
    assert (Happ : done ++ (k, ls) :: rest = (done ++ [(k, ls)]) ++ rest)
      by (now rewrite <- app_assoc).
    rewrite Happ in Hnd, HK. rewrite Happ.
    rewrite <- (IH (done ++ [(k, ls)]) Hnd HK).
    f_equal. rewrite map_app. cbn [map]. rewrite <- app_assoc. reflexivity.
Qed.

(** [crawl] in closed form. *)
Lemma crawl_map (listing : directory) :
  crawl listing
  = Ok (map (kept (keys (read_pages listing []))) (read_pages listing [])).
Proof.
  unfold crawl.
  assert (Hinv : read_invariant listing (read_pages listing [])).
  { apply read_pages_invariant; [apply incl_refl|].
    split; [constructor | intros p ls []]. }
  destruct Hinv as [Hnd _].
  exact (keep_corpus_links_map _ (read_pages listing []) [] Hnd eq_refl).
Qed.

Lemma In_map_kept (K : list page) (d : corpus) (p : page) (links : list page) :
  In (p, links) (map (kept K) d) ->
  exists ls, In (p, ls) d /\ links = filter (fun link => mem link K) ls.
Proof.
  intros H. apply in_map_iff in H. destruct H as ([p' ls] & E & Hin).
  unfold kept in E. cbn in E. injection E as -> <-. now exists ls.
Qed.

(** The corpus [crawl] builds is a link graph, whatever the directory. *)
Lemma crawl_map_link_graph (listing : directory) :
  link_graph (map (kept (keys (read_pages listing []))) (read_pages listing []))
  = true.
Proof.
  assert (Hinv : read_invariant listing (read_pages listing [])).
  { apply read_pages_invariant; [apply incl_refl|].
    split; [constructor | intros p ls []]. }
  destruct Hinv as [Hnd Hall].
  set (pages := read_pages listing []) in *.
  unfold link_graph. rewrite keys_map_kept. apply andb_true_iff. split.
  - now apply nodupb_NoDup.
  - apply forallb_forall. intros links Hl.
    apply in_map_iff in Hl. destruct Hl as ([p links'] & E & Hin).
    cbn in E. subst links.
    apply In_map_kept in Hin. destruct Hin as (ls & Hin & ->).
    destruct (Hall p ls Hin) as (_ & hrefs & _ & ->).
    apply andb_true_iff. split.
    + apply nodupb_NoDup. apply NoDup_filter. apply own_links_NoDup.
    + apply forallb_forall. intros q Hq. apply filter_In in Hq. tauto.
Qed.

Lemma read_pages_keys_distinct (listing : directory) :
  forall pages,
    NoDup (keys pages ++ map fst listing) ->
    keys (read_pages listing pages)
    = keys pages
      ++ filter (fun name => endswith name ".html") (map fst listing).
Proof.
  induction listing as [|[filename hrefs] rest IH]; intros pages Hnd.
  - cbn. now rewrite app_nil_r.
  - cbn [read_pages map fst filter].
    assert (Hnew : ~ In filename (keys pages)).
    { intros Hin. cbn [map fst] in Hnd.
      apply (NoDup_app_disjoint (keys pages) (filename :: map fst rest) filename Hnd Hin).
      now left. }
    assert (Hrest : NoDup (keys pages ++ map fst rest)).
    { cbn [map fst] in Hnd. now apply NoDup_remove_1 in Hnd. }
    destruct (endswith filename ".html"); cbn [negb].
    + rewrite IH; rewrite keys_setitem_new by exact Hnew.
      * now rewrite <- app_assoc.
      * rewrite <- app_assoc. exact Hnd.
    + now apply IH.
Qed.

(** X13: for a directory whose entries have distinct names, [crawl]
    returns as pages the names that end in [.html], in the order of the
    listing, each once; every link set is without repetition, holds only
    pages of the corpus, and never holds the page itself.  So the corpus
    is a link graph, the input the two estimators rely on. *)
Theorem crawl_link_graph (listing : directory) :
  NoDup (map fst listing) ->
  exists c,
    crawl listing = Ok c
    /\ keys c = filter (fun name => endswith name ".html") (map fst listing)
    /\ NoDup (keys c)
    /\ (forall p links,
          getitem c p = Ok links ->
          NoDup links /\ incl links (keys c) /\ ~ In p links)
    /\ link_graph c = true.
Proof.
  intros Hnames. rewrite crawl_map. eexists. split; [reflexivity|].
  assert (Hinv : read_invariant listing (read_pages listing [])).
  { apply read_pages_invariant; [apply incl_refl|].
    split; [constructor | intros p ls []]. }
  destruct Hinv as [Hnd Hall].
  rewrite keys_map_kept.
  split; [exact (read_pages_keys_distinct listing [] Hnames)|].
  split; [exact Hnd|]. split; [|apply crawl_map_link_graph].
  intros p links Hp. apply getitem_Ok_In in Hp.
  apply In_map_kept in Hp. destruct Hp as (ls & Hin & ->).
  destruct (Hall p ls Hin) as (_ & hrefs & _ & ->).
  split; [|split].
  - apply NoDup_filter. apply own_links_NoDup.
  - intros q Hq. apply filter_In in Hq. apply mem_In. apply Hq.
  - intros H. apply filter_In in H. destruct H as [H _].
    apply own_links_In in H. tauto.
Qed.

Lemma crawl_link_graph_witness :
  exists c,
    crawl [("1.html", ["2.html"; "1.html"; "x.html"; "2.html"]);
           ("notes.txt", ["1.html"]); ("2.html", [])]%string = Ok c
    /\ keys c
       = filter (fun name => endswith name ".html")
           (map fst [("1.html", ["2.html"; "1.html"; "x.html"; "2.html"]);
                     ("notes.txt", ["1.html"]); ("2.html", [])]%string)
    /\ NoDup (keys c)
    /\ (forall p links,
          getitem c p = Ok links ->
          NoDup links /\ incl links (keys c) /\ ~ In p links)
    /\ link_graph c = true.
Proof.
  apply (crawl_link_graph
           [("1.html", ["2.html"; "1.html"; "x.html"; "2.html"]);
            ("notes.txt", ["1.html"]); ("2.html", [])]%string).
  apply nodupb_NoDup. reflexivity.
Defined.

(** X14: the pages [crawl] returns are the entries of the directory whose
    name ends in [.html]; the links of a page are the hrefs found in it,
    other than the page itself, that name a page of the corpus. *)
Theorem crawl_pages (listing : directory) (c : corpus) :
  crawl listing = Ok c ->
  (forall p, In p (keys c)
             <-> endswith p ".html" = true /\ exists hrefs, In (p, hrefs) listing)
  /\ (forall p links,
        getitem c p = Ok links ->
        exists hrefs,
          In (p, hrefs) listing
          /\ forall q, In q links <-> In q hrefs /\ q <> p /\ In q (keys c)).
Proof.
  rewrite crawl_map. intros [= <-].
  assert (Hinv : read_invariant listing (read_pages listing [])).
  { apply read_pages_invariant; [apply incl_refl|].
    split; [constructor | intros p ls []]. }
  destruct Hinv as [Hnd Hall].
  set (pages := read_pages listing []) in *.
  split.
  - intros p. rewrite keys_map_kept. unfold pages. rewrite read_pages_keys.
    cbn. tauto.
  - intros p links Hp. apply getitem_Ok_In in Hp.
    apply In_map_kept in Hp. destruct Hp as (ls & Hin & ->).
    destruct (Hall p ls Hin) as (_ & hrefs & Hh & ->).
    exists hrefs. split; [exact Hh|]. intros q.
    rewrite filter_In, own_links_In, mem_In, keys_map_kept. tauto.
Qed.

Lemma crawl_pages_witness :
  (forall p, In p (keys [("1.html"%string, ["2.html"%string]); ("2.html"%string, [])])
             <-> endswith p ".html" = true
                 /\ exists hrefs,
                     In (p, hrefs)
                       [("1.html", ["2.html"; "1.html"; "x.html"; "2.html"]);
                        ("notes.txt", ["1.html"]); ("2.html", [])]%string)
  /\ (forall p links,
        getitem [("1.html"%string, ["2.html"%string]); ("2.html"%string, [])] p
        = Ok links ->
        exists hrefs,
          In (p, hrefs)
            [("1.html", ["2.html"; "1.html"; "x.html"; "2.html"]);
             ("notes.txt", ["1.html"]); ("2.html", [])]%string
          /\ forall q, In q links
                       <-> In q hrefs /\ q <> p
                           /\ In q (keys [("1.html"%string, ["2.html"%string]);
                                          ("2.html"%string, [])])).
Proof.
  apply (crawl_pages
           [("1.html", ["2.html"; "1.html"; "x.html"; "2.html"]);
            ("notes.txt", ["1.html"]); ("2.html", [])]%string).
  vm_compute. reflexivity.
Defined.

(** X15: the two calls of [main] on what [crawl] returns.  If the
    directory holds no [.html] file the corpus is empty and
    [sample_pagerank] raises [IndexError]; otherwise [sample_pagerank]
    with the constants [DAMPING] and [SAMPLES] returns a rank for every
    page, whatever the random source draws, and [iterate_pagerank]
    terminates with a rank for every page. *)
Theorem main_ranks (listing : directory) (c : corpus) (rnd : nat -> nat) :
  crawl listing = Ok c ->
  (c = [] -> sample_pagerank c DAMPING SAMPLES rnd = Raise IndexError)
  /\ (c <> [] ->
      (exists t, sample_pagerank c DAMPING SAMPLES rnd = Ok t
                 /\ keys t = keys c)
      /\ (exists fuel t, iterate_pagerank fuel c DAMPING = Some (Ok t)
                         /\ keys t = keys c)).
Proof.
  intros Hc. rewrite crawl_map in Hc. injection Hc as <-.
  pose proof (crawl_map_link_graph listing) as Hwf.
  set (c := map (kept (keys (read_pages listing []))) (read_pages listing [])) in *.
  split.
  - intros ->. reflexivity.
  - intros Hne. split.
    + destruct (sample_pagerank_spec c DAMPING SAMPLES rnd Hwf Hne)
        as (samples & _ & Hk & _ & Hrun); [unfold SAMPLES; lia|].
      eexists. split; [exact Hrun|]. now rewrite keys_rank_of_counts.
    + destruct (iterate_pagerank_run c DAMPING Hwf Hne) as (fuel & t & Hk & Hrun);
        [reflexivity|].
      exists fuel, t. split; [apply Hrun; lia | exact Hk].
Qed.

Lemma main_ranks_witness :
  ([("1.html"%string, ["2.html"%string]); ("2.html"%string, [])] = [] ->
   sample_pagerank [("1.html"%string, ["2.html"%string]); ("2.html"%string, [])]
     DAMPING SAMPLES (fun k => k) = Raise IndexError)
  /\ ([("1.html"%string, ["2.html"%string]); ("2.html"%string, [])] <> [] ->
      (exists t,
          sample_pagerank [("1.html"%string, ["2.html"%string]); ("2.html"%string, [])]
            DAMPING SAMPLES (fun k => k) = Ok t
          /\ keys t = keys [("1.html"%string, ["2.html"%string]); ("2.html"%string, [])])
      /\ (exists fuel t,
             iterate_pagerank fuel
               [("1.html"%string, ["2.html"%string]); ("2.html"%string, [])] DAMPING
             = Some (Ok t)
             /\ keys t = keys [("1.html"%string, ["2.html"%string]);
                               ("2.html"%string, [])])).
Proof.
  apply (main_ranks
           [("1.html", ["2.html"; "1.html"; "x.html"; "2.html"]);
            ("notes.txt", ["1.html"]); ("2.html", [])]%string).
  vm_compute. reflexivity.
Defined.

(** ** The order inside the link sets *)

Lemma same_graph_keys (c c' : corpus) : same_graph c c' -> keys c = keys c'.
Proof.
  induction 1 as [|[k l] [k' l'] r r' [Hk _] _ IH]; [reflexivity|].
  cbn [keys map fst] in *. now f_equal.
Qed.

Lemma same_graph_length (c c' : corpus) : same_graph c c' -> length c = length c'.
Proof. apply Forall2_length. Qed.

Lemma same_graph_getitem (c c' : corpus) (q : page) :
  same_graph c c' ->
  match getitem c q, getitem c' q with
  | Ok l, Ok l' => Permutation l l'
  | Raise e, Raise e' => e = e'
  | _, _ => False
  end.
Proof.
  induction 1 as [|[k l] [k' l'] r r' [Hk Hl] _ IH]; [reflexivity|].
  cbn in *. subst k'. destruct (String.eqb q k); [exact Hl | exact IH].
Qed.

Lemma mem_Permutation (p : page) (l l' : list page) :
  Permutation l l' -> mem p l = mem p l'.
Proof.
  intros H. destruct (mem p l') eqn:E.
  - apply mem_In. apply mem_In in E.
    apply (Permutation_in _ (Permutation_sym H) E).
  - apply mem_false. apply mem_false in E.
    intros Hin. apply E. apply (Permutation_in _ H Hin).
Qed.

Lemma same_graph_is_linking (c c' : corpus) (p q : page) :
  same_graph c c' -> is_linking c p q = is_linking c' p q.
Proof.
  intros H. pose proof (same_graph_getitem c c' q H) as Hq. unfold is_linking.
  destruct (getitem c q) as [l|e], (getitem c' q) as [l'|e'];
    try contradiction; [|reflexivity].
  now rewrite (mem_Permutation p l l' Hq), (Permutation_length Hq).
Qed.

Lemma same_graph_linking_pages_dict (c c' : corpus) :
  same_graph c c' -> linking_pages_dict c = linking_pages_dict c'.
Proof.
  intros H. rewrite !linking_pages_dict_map, <- (same_graph_keys c c' H).
  f_equal. apply map_ext. intros p. f_equal. apply filter_ext.
  intros q. now apply same_graph_is_linking.
Qed.

Lemma same_graph_component_loop (c c' : corpus) (N : nat) (T : dict Q)
  (bl : list page) :
  same_graph c c' ->
  forall acc, component_loop c N T bl acc = component_loop c' N T bl acc.
Proof.
  intros H. induction bl as [|q rest IH]; intros acc; [reflexivity|].
  cbn [component_loop]. pose proof (same_graph_getitem c c' q H) as Hq.
  destruct (getitem c q) as [l|e], (getitem c' q) as [l'|e'];
    try contradiction; cbn [bind]; [|now subst].
  rewrite (Permutation_length Hq).
  destruct (getitem T q); cbn [bind]; [|reflexivity].
  destruct (if Nat.eqb (length l') 0 then fdiv a (Qnat N)
            else fdiv a (Qnat (length l'))); cbn [bind]; [apply IH | reflexivity].
Qed.

Lemma same_graph_round_loop (c c' : corpus) (d : Q) (N : nat)
  (lpd : dict (list page)) (todo : list page) :
  same_graph c c' ->
  forall T loop,
    round_loop c d N lpd todo T loop = round_loop c' d N lpd todo T loop.
Proof.
  intros H. induction todo as [|p rest IH]; intros T loop; [reflexivity|].
  cbn [round_loop]. destruct (getitem lpd p) as [bl|e]; cbn [bind]; [|reflexivity].
  unfold estimate_page_rank. rewrite (same_graph_component_loop c c' N T bl H).
  destruct (component_loop c' N T bl 0); cbn [bind]; [|reflexivity].
  destruct (fdiv (1 - d) (Qnat N)); cbn [bind]; [|reflexivity].
  destruct (getitem T p); cbn [bind]; [apply IH | reflexivity].
Qed.

Lemma same_graph_while_loop (c c' : corpus) (d : Q) (N : nat)
  (lpd : dict (list page)) (fuel : nat) :
  same_graph c c' ->
  forall T, while_loop fuel c d N lpd T = while_loop fuel c' d N lpd T.
Proof.
  intros H. induction fuel as [|fuel IH]; intros T; [reflexivity|].
  cbn [while_loop]. unfold round.
  rewrite (same_graph_round_loop c c' d N lpd _ H), (same_graph_keys c c' H).
  destruct (round_loop c' d N lpd (keys c') T false) as [[T' loop]|e];
    [|reflexivity].
  destruct loop; [apply IH | reflexivity].
Qed.

Lemma dict_ext {V : Type} (d1 : dict V) :
  forall d2,
    keys d1 = keys d2 -> NoDup (keys d1) ->
    (forall k, In k (keys d1) -> getitem d1 k = getitem d2 k) ->
    d1 = d2.
Proof.
  induction d1 as [|[k v] r IH]; intros [|[k' v'] r'] Hk Hnd Hget;
    try discriminate; [reflexivity|].
  cbn in Hk. injection Hk as <- Hk. inversion Hnd; subst.
  pose proof (Hget k (or_introl eq_refl)) as Hv. cbn in Hv.
  rewrite String.eqb_refl in Hv. injection Hv as <-.
  f_equal. apply IH; try assumption.
  intros q Hq. specialize (Hget q (or_intror Hq)). cbn in Hget.
  assert (Hqk : String.eqb q k = false).
  { apply String.eqb_neq. intros ->. contradiction. }
  now rewrite Hqk in Hget.
Qed.

Lemma same_graph_transition_model (c c' : corpus) (p : page) (d : Q) :
  link_graph c = true -> same_graph c c' ->
  transition_model c p d = transition_model c' p d.
Proof.
  intros Hwf H. pose proof (same_graph_getitem c c' p H) as Hp.
  pose proof (same_graph_keys c c' H) as Hk.
  pose proof (same_graph_length c c' H) as HN.
  destruct (getitem c p) as [l|e] eqn:El, (getitem c' p) as [l'|e'] eqn:El';
    try contradiction.
  2:{ unfold transition_model. rewrite El, El'. cbn. now subst. }
  destruct (link_graph_links c p l Hwf El) as [Hnd Hincl].
  assert (HNc : length c <> O) by (eapply getitem_nonempty; eassumption).
  unfold transition_model. rewrite El, El', <- Hk, <- HN. cbn [bind].
  rewrite <- (Permutation_length Hp).
  destruct (Nat.eqb (length l) 0) eqn:E0; [reflexivity|].
  apply Nat.eqb_neq in E0.
  rewrite !fdiv_Qnat by assumption. cbn [bind].
  set (rc := (1 - d) / Qnat (length c)). set (lc := d / Qnat (length l)).
  destruct (add_link_chance_spec l lc (fromkeys (keys c) rc) Hnd)
    as (d1 & Hr1 & Hk1 & Hg1 & _); [now rewrite keys_fromkeys|].
  destruct (add_link_chance_spec l' lc (fromkeys (keys c) rc))
    as (d2 & Hr2 & Hk2 & Hg2 & _).
  { exact (Permutation_NoDup Hp Hnd). }
  { rewrite keys_fromkeys. intros x Hx. apply Hincl.
    apply (Permutation_in _ (Permutation_sym Hp) Hx). }
  rewrite Hr1, Hr2. f_equal. rewrite keys_fromkeys in Hk1, Hk2.
  apply dict_ext.
  - now rewrite Hk1, Hk2.
  - rewrite Hk1. now apply link_graph_keys.
  - intros q Hq. rewrite Hk1 in Hq.
    rewrite (Hg1 q rc), (Hg2 q rc) by (now apply getitem_fromkeys).
    now rewrite (mem_Permutation q l l' Hp).
Qed.

Lemma same_graph_sample_loop (c c' : corpus) (d : Q) (rnd : nat -> nat) (k : nat) :
  link_graph c = true -> same_graph c c' ->
  forall s dist samples,
    sample_loop c d rnd k s dist samples = sample_loop c' d rnd k s dist samples.
Proof.
  intros Hwf H. induction k as [|k IH]; intros s dist samples; [reflexivity|].
  cbn [sample_loop].
  destruct (random_choices (keys dist) (values dist) (rnd (S s))) as [p|e];
    cbn [bind]; [|reflexivity].
  rewrite (same_graph_transition_model c c' p d Hwf H).
  destruct (transition_model c' p d); cbn [bind]; [|reflexivity].
  destruct (incr samples p); cbn [bind]; [apply IH | reflexivity].
Qed.

(** X16: the results do not depend on the order in which a link set lists
    its pages (the iteration order of a Python [set] is not fixed): on a
    link graph, two corpora with the same pages and the same link sets
    give the same [transition_model], the same [sample_pagerank] for the
    same draws, and the same [iterate_pagerank]. *)
Theorem link_set_order (c c' : corpus) :
  link_graph c = true -> same_graph c c' ->
  (forall p d, transition_model c p d = transition_model c' p d)
  /\ (forall d n rnd, sample_pagerank c d n rnd = sample_pagerank c' d n rnd)
  /\ (forall fuel d, iterate_pagerank fuel c d = iterate_pagerank fuel c' d).
Proof.
  intros Hwf H. split; [|split].
  - intros p d. now apply same_graph_transition_model.
  - intros d n rnd. unfold sample_pagerank, sample_counts.
    rewrite <- (same_graph_keys c c' H).
    destruct (random_choice (keys c) (rnd O)) as [p|e]; cbn [bind]; [|reflexivity].
    rewrite (same_graph_transition_model c c' p d Hwf H).
    destruct (transition_model c' p d); cbn [bind]; [|reflexivity].
    destruct (incr (fromkeys (keys c) 0%Z) p); cbn [bind]; [|reflexivity].
    now rewrite (same_graph_sample_loop c c' d rnd _ Hwf H).
  - intros fuel d. unfold iterate_pagerank.
    rewrite (same_graph_linking_pages_dict c c' H),
      <- (same_graph_length c c' H), <- (same_graph_keys c c' H).
    destruct (linking_pages_dict c') as [lpd|e]; [|reflexivity].
    destruct (fdiv 1 (Qnat (length c))); [|reflexivity].
    now apply same_graph_while_loop.
Qed.

Lemma link_set_order_witness :
  (forall p d,
      transition_model [("A", ["B"; "C"]); ("B", []); ("C", ["A"])]%string p d
      = transition_model [("A", ["C"; "B"]); ("B", []); ("C", ["A"])]%string p d)
  /\ (forall d n rnd,
        sample_pagerank [("A", ["B"; "C"]); ("B", []); ("C", ["A"])]%string d n rnd
        = sample_pagerank [("A", ["C"; "B"]); ("B", []); ("C", ["A"])]%string d n rnd)
  /\ (forall fuel d,
        iterate_pagerank fuel [("A", ["B"; "C"]); ("B", []); ("C", ["A"])]%string d
        = iterate_pagerank fuel [("A", ["C"; "B"]); ("B", []); ("C", ["A"])]%string d).
Proof.
  apply (link_set_order [("A", ["B"; "C"]); ("B", []); ("C", ["A"])]%string
           [("A", ["C"; "B"]); ("B", []); ("C", ["A"])]%string).
  - reflexivity.
  - repeat constructor.
Defined.

(** * The code in binary64 *)

(** ** The sum of the ranks after in-place rounds *)

(** C1: the code does not do what the claim says.  On the chain
    [A -> B -> C] with damping 0.85, in the first round the estimate of
    [B] is computed from the table in which [A] already has its new value,
    not from the start-of-round table; the loop returns after 13 rounds,
    and the ranks it returns add up to 0.99512700731669901, not to 1. *)
Theorem iterate_pagerank_chain_in_place :
  let lpd := [("A", ["C"]); ("B", ["A"; "C"]); ("C", ["B"; "C"])]%string in
  let pr0 := fromkeys (keys chain) (PrimFloat.div 1 3) in
  linking_pages_dict chain = Ok lpd
  /\ (exists pr1 loop a b b_snapshot,
        B64.round chain B64.DAMPING 3 lpd pr0 = Ok (pr1, loop)
        /\ getitem pr1 "A"%string = Ok a
        /\ getitem pr1 "B"%string = Ok b
        /\ B64.estimate_page_rank chain B64.DAMPING 3 (setitem pr0 "A"%string a)
             ["A"; "C"]%string = Ok b
        /\ B64.estimate_page_rank chain B64.DAMPING 3 pr0 ["A"; "C"]%string
           = Ok b_snapshot
        /\ PrimFloat.eqb b b_snapshot = false)
  /\ B64.iterate_pagerank 12 chain B64.DAMPING = None
  /\ exists t,
      B64.iterate_pagerank 13 chain B64.DAMPING = Some (Ok t)
      /\ B64.fsum (values t) = 0.99512700731669901%float
      /\ PrimFloat.eqb (B64.fsum (values t)) 1%float = false
      /\ Qsum (map B64.to_Q (values t)) < 996 # 1000.
Proof.
  split; [vm_compute; reflexivity|]. split; [|split].
  - do 5 eexists.
    split; [vm_compute; reflexivity|]. split; [vm_compute; reflexivity|].
    split; [vm_compute; reflexivity|]. split; [vm_compute; reflexivity|].
    split; vm_compute; reflexivity.
  - vm_compute. reflexivity.
  - eexists.
    split; [vm_compute; reflexivity|]. split; [vm_compute; reflexivity|].
    split; vm_compute; reflexivity.
Qed.

(** ** A run that never ends *)

Lemma ring_rounds :
  let lpd := [("A", ["B"; "D"]); ("B", ["C"]); ("C", ["A"]); ("D", [])]%string in
  B64.round ring near_one 4 lpd (fromkeys (keys ring) 0.25%float)
  = Ok (ring_high, true)
  /\ B64.round ring near_one 4 lpd ring_high = Ok (ring_low, true)
  /\ B64.round ring near_one 4 lpd ring_low = Ok (ring_high, true).
Proof.
  split; [vm_compute; reflexivity|]. split; vm_compute; reflexivity.
Qed.

Lemma ring_cycle (fuel : nat) :
  let lpd := [("A", ["B"; "D"]); ("B", ["C"]); ("C", ["A"]); ("D", [])]%string in
  B64.while_loop fuel ring near_one 4 lpd ring_high = None
  /\ B64.while_loop fuel ring near_one 4 lpd ring_low = None.
Proof.
  intros lpd. destruct ring_rounds as (_ & Hhigh & Hlow). fold lpd in Hhigh, Hlow.
  induction fuel as [|fuel [IHh IHl]]; [split; reflexivity|].
  split; cbn [B64.while_loop].
  - rewrite Hhigh. exact IHl.
  - rewrite Hlow. exact IHh.
Qed.

(** C8: the code does not terminate for every damping below 1.  On the
    link graph [ring] with the damping 0.9999999999999999 the rounds go
    back and forth between two tables, each round changes [A], [B] and [C]
    by 0.25 and raises the flag, and [iterate_pagerank] never returns,
    whatever the number of rounds allowed. *)
Theorem iterate_pagerank_ring_cycles :
  let lpd := [("A", ["B"; "D"]); ("B", ["C"]); ("C", ["A"]); ("D", [])]%string in
  link_graph ring = true
  /\ (forall p links, getitem ring p = Ok links -> ~ In p links)
  /\ PrimFloat.leb 0 near_one = true /\ PrimFloat.ltb near_one 1 = true
  /\ linking_pages_dict ring = Ok lpd
  /\ B64.round ring near_one 4 lpd (fromkeys (keys ring) 0.25%float)
     = Ok (ring_high, true)
  /\ B64.round ring near_one 4 lpd ring_high = Ok (ring_low, true)
  /\ B64.round ring near_one 4 lpd ring_low = Ok (ring_high, true)
  /\ forall fuel, B64.iterate_pagerank fuel ring near_one = None.
Proof.
  intros lpd. destruct ring_rounds as (Hfirst & Hhigh & Hlow).
  fold lpd in Hfirst, Hhigh, Hlow.
  split; [vm_compute; reflexivity|]. split.
  { intros p links H. apply getitem_Ok_In in H. unfold ring in H.
    cbn [In] in H.
    destruct H as [H|[H|[H|[H|[]]]]]; injection H as <- <-;
      cbn [In]; intuition discriminate. }
  split; [vm_compute; reflexivity|]. split; [vm_compute; reflexivity|].
  split; [vm_compute; reflexivity|].
  split; [exact Hfirst|]. split; [exact Hhigh|]. split; [exact Hlow|].
  intros fuel. unfold B64.iterate_pagerank.
  assert (E1 : linking_pages_dict ring = Ok lpd) by (vm_compute; reflexivity).
  assert (E2 : B64.fdiv (B64.b64_of_Z 1) (Z.of_nat (length ring))
               = Ok 0.25%float) by (vm_compute; reflexivity).
  rewrite E1, E2.
  destruct fuel as [|fuel]; [reflexivity|].
  cbn [B64.while_loop]. change (length ring) with 4%nat.
  rewrite Hfirst. apply (ring_cycle fuel).
Qed.

(** ** The exit test in binary64 *)

(** The test of line 155 on floats: neither computed difference exceeds
    the float 0.001. *)
Lemma b64_test (current estimate : float) :
  PrimFloat.ltb B64.threshold (PrimFloat.sub current estimate)
  || PrimFloat.ltb B64.threshold (PrimFloat.sub estimate current) = false
  <-> PrimFloat.ltb B64.threshold (PrimFloat.sub current estimate) = false
      /\ PrimFloat.ltb B64.threshold (PrimFloat.sub estimate current) = false.
Proof. apply orb_false_iff. Qed.

Lemma round_loop_b64_app (c : corpus) (d : float) (N : nat)
  (lpd : dict (list page)) (l1 l2 : list page) :
  forall (pr : dict float) (loop : bool),
    B64.round_loop c d N lpd (l1 ++ l2) pr loop
    = (st <- B64.round_loop c d N lpd l1 pr loop ;;
       B64.round_loop c d N lpd l2 (fst st) (snd st)).
Proof.
  induction l1 as [|p r IH]; intros pr loop; [reflexivity|].
  cbn [app B64.round_loop].
  destruct (getitem lpd p) as [bl|e]; [|reflexivity]. cbn [bind].
  destruct (B64.estimate_page_rank c d N pr bl) as [est|e]; [|reflexivity].
  cbn [bind]. destruct (getitem pr p) as [cur|e]; [|reflexivity].
  cbn [bind]. apply IH.
Qed.

Lemma round_loop_b64_spec (c : corpus) (d : float) (N : nat)
  (lpd : dict (list page)) (todo : list page) :
  forall (pr : dict float) (loop : bool) (pr' : dict float) (loop' : bool),
    NoDup todo ->
    B64.round_loop c d N lpd todo pr loop = Ok (pr', loop') ->
    (forall q, ~ In q todo -> getitem pr' q = getitem pr q)
    /\ (loop' = false <->
        loop = false
        /\ forall p, In p todo ->
             exists old new,
               getitem pr p = Ok old /\ getitem pr' p = Ok new
               /\ PrimFloat.ltb B64.threshold (PrimFloat.sub old new) = false
               /\ PrimFloat.ltb B64.threshold (PrimFloat.sub new old) = false).
Proof.
  induction todo as [|p rest IH]; intros pr loop pr' loop' Hnd H.
  - cbn in H. injection H as <- <-. split; [reflexivity|].
    split; [intros Hl; split; [exact Hl | intros p []] | intros [Hl _]; exact Hl].
  - inversion Hnd as [|? ? Hnotin Hnd']; subst.
    cbn [B64.round_loop] in H.
    bind_inv H. rename a into bl. bind_inv H. rename a into est.
    bind_inv H. rename a into cur.
    destruct (IH _ _ _ _ Hnd' H) as (Hother & Hflag).
    assert (Hp' : getitem pr' p = Ok est).
    { rewrite (Hother p Hnotin). apply getitem_setitem_same. }
    split.
    { intros q Hq. rewrite Hother by (intros Hin; apply Hq; now right).
      apply getitem_setitem_other. intros ->. apply Hq. now left. }
    rewrite Hflag. clear Hflag.
    destruct (PrimFloat.ltb B64.threshold (PrimFloat.sub cur est)
              || PrimFloat.ltb B64.threshold (PrimFloat.sub est cur)) eqn:Ht.
    + split; [intros [Hl _]; discriminate|].
      intros [_ Hall]. exfalso.
      destruct (Hall p (or_introl eq_refl)) as (old & new & H1 & H2 & H3 & H4).
      rewrite Ha1 in H1. rewrite Hp' in H2.
      injection H1 as <-. injection H2 as <-.
      rewrite H3, H4 in Ht. discriminate.
    + apply b64_test in Ht. destruct Ht as [Ht1 Ht2]. split.
      * intros [Hl Hall]. split; [exact Hl|].
        intros q [<-|Hq].
        -- exists cur, est. repeat split; assumption.
        -- destruct (Hall q Hq) as (old & new & H1 & H2 & H3).
           exists old, new. repeat split; try tauto.
           rewrite <- H1. symmetry. apply getitem_setitem_other.
           intros ->. contradiction.
      * intros [Hl Hall]. split; [exact Hl|].
        intros q Hq.
        destruct (Hall q (or_intror Hq)) as (old & new & H1 & H2 & H3).
        exists old, new. repeat split; try tauto.
        rewrite <- H1. apply getitem_setitem_other.
        intros ->. contradiction.
Qed.

(** X17: on binary64 floats, as the code runs: in a round the value
    written for a page is the estimate computed from the table as it
    stands when the page is reached; the round leaves the flag down
    exactly when, for every page, neither [current - estimate] nor
    [estimate - current], as computed, exceeds the float 0.001; then the
    loop returns the table that round wrote, else it goes on. *)
Theorem round_b64_exit (c : corpus) (d : float) (N : nat)
  (lpd : dict (list page)) (pr pr' : dict float) (loop : bool) (fuel : nat) :
  NoDup (keys c) ->
  B64.round c d N lpd pr = Ok (pr', loop) ->
  (forall pre p post, keys c = pre ++ p :: post ->
     exists mid loop_mid bl new,
       B64.round_loop c d N lpd pre pr false = Ok (mid, loop_mid)
       /\ getitem lpd p = Ok bl
       /\ B64.estimate_page_rank c d N mid bl = Ok new
       /\ getitem mid p = getitem pr p
       /\ getitem pr' p = Ok new)
  /\ (loop = false <->
      forall p, In p (keys c) ->
        exists old new,
          getitem pr p = Ok old /\ getitem pr' p = Ok new
          /\ PrimFloat.ltb B64.threshold (PrimFloat.sub old new) = false
          /\ PrimFloat.ltb B64.threshold (PrimFloat.sub new old) = false)
  /\ B64.while_loop (S fuel) c d N lpd pr
     = (if loop then B64.while_loop fuel c d N lpd pr' else Some (Ok pr')).
Proof.
  intros Hnd H. split; [|split].
  - intros pre p post Hsplit. unfold B64.round in H.
    rewrite Hsplit in H, Hnd. rewrite round_loop_b64_app in H.
    bind_inv H. destruct a as [mid loop_mid]. cbn [fst snd] in H.
    pose proof (NoDup_app_remove_r _ _ Hnd) as Hpre.
    pose proof (NoDup_app_remove_l _ _ Hnd) as Hpost.
    destruct (round_loop_b64_spec c d N lpd pre _ _ _ _ Hpre Ha) as (Hmid & _).
    cbn [B64.round_loop] in H.
    bind_inv H. rename a into bl. bind_inv H. rename a into e. bind_inv H.
    inversion Hpost as [|? ? Hnotin Hpost']; subst.
    destruct (round_loop_b64_spec c d N lpd post _ _ _ _ Hpost' H) as (Hrest & _).
    exists mid, loop_mid, bl, e. repeat split; try assumption.
    + apply Hmid. intros Hin.
      apply (NoDup_app_disjoint pre (p :: post) p Hnd Hin). now left.
    + rewrite (Hrest p Hnotin). apply getitem_setitem_same.
  - destruct (round_loop_b64_spec c d N lpd (keys c) pr false pr' loop Hnd H)
      as (_ & Hflag).
    rewrite Hflag. tauto.
  - cbn [B64.while_loop]. now rewrite H.
Qed.

Lemma round_b64_exit_witness :
  (forall pre p post, keys ring = pre ++ p :: post ->
     exists mid loop_mid bl new,
       B64.round_loop ring near_one 4
         [("A", ["B"; "D"]); ("B", ["C"]); ("C", ["A"]); ("D", [])]%string
         pre ring_high false = Ok (mid, loop_mid)
       /\ getitem [("A", ["B"; "D"]); ("B", ["C"]); ("C", ["A"]); ("D", [])]%string p
          = Ok bl
       /\ B64.estimate_page_rank ring near_one 4 mid bl = Ok new
       /\ getitem mid p = getitem ring_high p
       /\ getitem ring_low p = Ok new)
  /\ (true = false <->
      forall p, In p (keys ring) ->
        exists old new,
          getitem ring_high p = Ok old /\ getitem ring_low p = Ok new
          /\ PrimFloat.ltb B64.threshold (PrimFloat.sub old new) = false
          /\ PrimFloat.ltb B64.threshold (PrimFloat.sub new old) = false)
  /\ B64.while_loop 1 ring near_one 4
       [("A", ["B"; "D"]); ("B", ["C"]); ("C", ["A"]); ("D", [])]%string ring_high
     = (if true
        then B64.while_loop 0 ring near_one 4
               [("A", ["B"; "D"]); ("B", ["C"]); ("C", ["A"]); ("D", [])]%string
               ring_low
        else Some (Ok ring_low)).
Proof.
  apply (round_b64_exit ring near_one 4
           [("A", ["B"; "D"]); ("B", ["C"]); ("C", ["A"]); ("D", [])]%string
           ring_high ring_low true O).
  - apply nodupb_NoDup. reflexivity.
  - vm_compute. reflexivity.
Defined.
